(** * useXChat: the message list of a chat bound to an asynchronous agent

    Shallow embedding of the [useXChat] hook (message store, request
    orchestration, display mapping) and the properties of its
    specification.

    Conventions of the embedding:
    - a payload ([SimpleType = string | number | boolean | object]) is a
      value of the inductive [SimpleType]; the code never computes on a
      payload, it only tests truthiness, [typeof ... === 'function'] and
      [Array.isArray], so numbers are represented by their integer values
      and a non-array object by an opaque tag;
    - an id ([number | string]) is a [MsgId]; the hook only ever compares
      an id with a generated string id or prints it in a template literal;
    - [idRef.current] is a natural number (a JavaScript number counts
      exactly far beyond any run);
    - the hook instance is the record [Hook]: the message store, the
      [idRef] counter, the closure variables of every [onRequest] call made
      so far and the log of calls to [agent.request];
    - the agent is external: what it does is a trace of [Event]s delivered
      to the handlers of an activation. An [onError] handler with a
      fallback function stops at its [await]; its continuation is the
      event [FallbackSettled];
    - the store primitive [./useSyncState] is modelled from its
      specification. *)

From Stdlib Require Import List String Ascii ZArith NArith Bool Arith Lia FinFun.
From Stdlib Require Import DecimalString DecimalN DecimalNat DecimalZ.
Import ListNotations.
Open Scope list_scope.
Set Warnings "-register-all".

(* ================================================================== *)
(** ** Data model *)

(** [SimpleType]: string | number | boolean | object. Arrays are objects
    and are told apart by [Array.isArray]. *)
Inductive SimpleType : Type :=
| SString (s : string)
| SNumber (n : Z)
| SBoolean (b : bool)
| SObject (tag : nat)
| SArray (items : list SimpleType).

(** JavaScript truthiness of a payload: the empty string, zero and
    [false] are falsy, every object (arrays included) is truthy. *)
Definition truthy (v : SimpleType) : bool :=
  match v with
  | SString s => negb (String.eqb s EmptyString)
  | SNumber n => negb (Z.eqb n 0)
  | SBoolean b => b
  | SObject _ => true
  | SArray _ => true
  end.

Inductive MessageStatus : Type := local | loading | success | error.

Definition status_eqb (a b : MessageStatus) : bool :=
  match a, b with
  | local, local | loading, loading | success, success | error, error => true
  | _, _ => false
  end.

(** [id: number | string] *)
Inductive MsgId : Type :=
| IdNum (n : Z)
| IdStr (s : string).

(** [===] on two ids *)
Definition id_eqb (a b : MsgId) : bool :=
  match a, b with
  | IdNum x, IdNum y => Z.eqb x y
  | IdStr x, IdStr y => String.eqb x y
  | _, _ => false
  end.

(** [info.id === v] where [v : number | string | null] *)
Definition id_is (a : MsgId) (v : option MsgId) : bool :=
  match v with
  | Some b => id_eqb a b
  | None => false
  end.

Record MessageInfo : Type := mkInfo {
  id : MsgId;
  message : SimpleType;
  status : MessageStatus
}.

(** [DefaultMessageInfo]: the payload, and optionally an id and a status *)
Record DefaultMessageInfo : Type := mkDefault {
  d_message : SimpleType;
  d_id : option MsgId;
  d_status : option MessageStatus
}.

(** Template-literal rendering of a number: [`${n}`] *)
Definition show_N (n : N) : string := NilEmpty.string_of_uint (N.to_uint n).
Definition show_nat (n : nat) : string := NilEmpty.string_of_uint (Nat.to_uint n).
Definition show_Z (n : Z) : string := NilEmpty.string_of_int (Z.to_int n).

(** [`${key}`] for [key : number | string] *)
Definition show_id (k : MsgId) : string :=
  match k with
  | IdNum n => show_Z n
  | IdStr s => s
  end.

(** [`msg_${idRef.current}`] *)
Definition msg_id (counter : N) : MsgId := IdStr ("msg_" ++ show_N counter)%string.

(** [`default_${index}`] *)
Definition default_id (index : nat) : MsgId := IdStr ("default_" ++ show_nat index)%string.

(** [Array.prototype.map] / [forEach] with the index *)
Fixpoint mapi_from {A B : Type} (f : A -> nat -> B) (start : nat) (l : list A) : list B :=
  match l with
  | [] => []
  | x :: rest => f x start :: mapi_from f (S start) rest
  end.

Definition mapi {A B : Type} (f : A -> nat -> B) (l : list A) : list B :=
  mapi_from f 0 l.

(* ================================================================== *)
(** ** Configuration *)

Definition ErrorObj : Type := string.

Record XAgent : Type := mkAgent { agent_name : string }.

Definition RequestPlaceholderFn : Type :=
  SimpleType -> list SimpleType -> SimpleType.

(** A fallback function returns a payload or a promise of one; [None]
    stands for a call that throws or a promise that rejects. *)
Definition RequestFallbackFn : Type :=
  SimpleType -> ErrorObj -> list SimpleType -> option SimpleType.

(** [AgentMessage | Fn], told apart by [typeof ... === 'function'] *)
Inductive ValueOrFn (F : Type) : Type :=
| Static (v : SimpleType)
| Computed (f : F).
Arguments Static {F} v.
Arguments Computed {F} f.

(** Truthiness of an [AgentMessage | Fn] value: a function is truthy *)
Definition truthy_or_fn {F : Type} (x : ValueOrFn F) : bool :=
  match x with
  | Static v => truthy v
  | Computed _ => true
  end.

Record XChatConfig : Type := mkConfig {
  agent : option XAgent;
  defaultMessages : option (list DefaultMessageInfo);
  parser : option (SimpleType -> SimpleType);
  requestPlaceholder : option (ValueOrFn RequestPlaceholderFn);
  requestFallback : option (ValueOrFn RequestFallbackFn)
}.

(* ================================================================== *)
(** ** Message store: useSyncState *)

Inductive SetStateAction (T : Type) : Type :=
| NewValue (v : T)
| Updater (f : T -> T).
Arguments NewValue {T} v.
Arguments Updater {T} f.

(** Modelled from the spec: the module [./useSyncState] imported by the
    hook. One mutable cell behind two accessors: a notifying setter and a
    plain getter reading the cell directly; the cell is updated before any
    observer notification is scheduled. [observed] is the value the
    observers last received, [scheduled] counts the notifications not yet
    delivered. *)
Record SyncState (T : Type) : Type := mkSync {
  cell : T;
  observed : T;
  scheduled : nat
}.
Arguments mkSync {T}.
Arguments cell {T}.
Arguments observed {T}.
Arguments scheduled {T}.

(** Modelled from the spec: construction of the store from its initial value. *)
Definition useSyncState {T : Type} (init : T) : SyncState T :=
  mkSync init init 0.

(** Modelled from the spec: the setter, given a new sequence or a function
    from the old sequence to the new one, applied atomically. *)
Definition setState {T : Type} (action : SetStateAction T) (s : SyncState T) : SyncState T :=
  mkSync (match action with
          | NewValue v => v
          | Updater f => f (cell s)
          end)
         (observed s)
         (S (scheduled s)).

(** Modelled from the spec: the synchronous getter. *)
Definition getState {T : Type} (s : SyncState T) : T := cell s.

(** Modelled from the spec: the hosting environment delivers the pending
    notifications; the observers now see the committed value. *)
Definition notify {T : Type} (s : SyncState T) : SyncState T :=
  mkSync (cell s) (cell s) 0.

(** A run of setter calls with notifications delivered at arbitrary points *)
Inductive StoreOp (T : Type) : Type :=
| OpSet (action : SetStateAction T)
| OpNotify.
Arguments OpSet {T} action.
Arguments OpNotify {T}.

Definition store_op {T : Type} (s : SyncState T) (op : StoreOp T) : SyncState T :=
  match op with
  | OpSet action => setState action s
  | OpNotify => notify s
  end.

(* ================================================================== *)
(** ** The hook instance *)

(** The variables captured by the handlers of one [onRequest] call *)
Record Closure : Type := mkClosure {
  req_message : SimpleType;
  loadingMsgId : option MsgId;
  updatingMsgId : option MsgId;
  (* payloads of fallback promises whose [await] has not resumed yet *)
  awaiting : list SimpleType
}.

(** The first argument of [agent.request] *)
Record RequestInfo : Type := mkRequestInfo {
  ri_message : SimpleType;
  ri_messages : list SimpleType
}.

Record Hook : Type := mkHook {
  messagesState : SyncState (list MessageInfo);
  idRef : N;
  closures : list Closure;
  agentCalls : list RequestInfo
}.

(** State monad over the hook instance *)
Definition M (A : Type) : Type := Hook -> A * Hook.

Definition ret {A : Type} (a : A) : M A := fun h => (a, h).

Definition bind {A B : Type} (c : M A) (k : A -> M B) : M B :=
  fun h => let (a, h') := c h in k a h'.

Declare Scope hook_scope.
Delimit Scope hook_scope with hook.
Notation "x <- c ;; k" := (bind c (fun x => k))
  (at level 61, c at next level, right associativity) : hook_scope.
Notation "c ;; k" := (bind c (fun _ => k))
  (at level 61, right associativity) : hook_scope.
Open Scope hook_scope.

Definition exec {A : Type} (c : M A) (h : Hook) : Hook := snd (c h).

(** [getMessages()] *)
Definition getMessages : M (list MessageInfo) :=
  fun h => (getState (messagesState h), h).

(** [setMessages((ori) => ...)]: the updater runs on the committed
    sequence (its effects on [idRef] and on closure variables happen
    then) and its result is committed. *)
Definition setMessages (updater : list MessageInfo -> M (list MessageInfo)) : M unit :=
  fun h =>
    let (next, h1) := updater (getState (messagesState h)) h in
    (tt, mkHook (setState (NewValue next) (messagesState h1))
                (idRef h1) (closures h1) (agentCalls h1)).

(** [createMessage] *)
Definition createMessage (m : SimpleType) (st : MessageStatus) : M MessageInfo :=
  fun h =>
    (mkInfo (msg_id (idRef h)) m st,
     mkHook (messagesState h) (idRef h + 1) (closures h) (agentCalls h)).

(** Closure variables of request [r] *)
Fixpoint update_nth {A : Type} (n : nat) (f : A -> A) (l : list A) : list A :=
  match l, n with
  | [], _ => []
  | x :: rest, O => f x :: rest
  | x :: rest, S k => x :: update_nth k f rest
  end.

Definition closure_of (r : nat) (h : Hook) : option Closure := nth_error (closures h) r.

Definition read {A : Type} (r : nat) (field : Closure -> A) (dflt : A) : M A :=
  fun h => (match closure_of r h with Some c => field c | None => dflt end, h).

Definition modify_closure (r : nat) (f : Closure -> Closure) : M unit :=
  fun h => (tt, mkHook (messagesState h) (idRef h) (update_nth r f (closures h)) (agentCalls h)).

Definition set_loadingMsgId (r : nat) (v : option MsgId) : M unit :=
  modify_closure r (fun c => mkClosure (req_message c) v (updatingMsgId c) (awaiting c)).

Definition set_updatingMsgId (r : nat) (v : option MsgId) : M unit :=
  modify_closure r (fun c => mkClosure (req_message c) (loadingMsgId c) v (awaiting c)).

Definition set_awaiting (r : nat) (v : list SimpleType) : M unit :=
  modify_closure r (fun c => mkClosure (req_message c) (loadingMsgId c) (updatingMsgId c) v).

(** A new [onRequest] activation: [let loadingMsgId = null],
    [let updatingMsgId = null]. Returns the index of the activation. *)
Definition new_closure (m : SimpleType) : M nat :=
  fun h => (List.length (closures h),
            mkHook (messagesState h) (idRef h)
                   (closures h ++ [mkClosure m None None []]) (agentCalls h)).

(** [agent.request(info, handlers)]: the call is logged; the handlers are
    the functions [onUpdate], [onSuccess], [onError] below at index [r]. *)
Definition agent_request (info : RequestInfo) : M unit :=
  fun h => (tt, mkHook (messagesState h) (idRef h) (closures h) (agentCalls h ++ [info])).

(* ================================================================== *)
(** ** The hook *)

(** Initial store: [(defaultMessages || []).map((info, index) =>
    ({ id: `default_${index}`, status: 'local', ...info }))] *)
Definition seed (defaults : option (list DefaultMessageInfo)) : list MessageInfo :=
  mapi (fun info index =>
          mkInfo (match d_id info with Some i => i | None => default_id index end)
                 (d_message info)
                 (match d_status info with Some s => s | None => local end))
       (match defaults with Some l => l | None => [] end).

Definition useXChat (config : XChatConfig) : Hook :=
  mkHook (useSyncState (seed (defaultMessages config))) 0 [] [].

(** [toArray] *)
Definition toArray (item : SimpleType) : list SimpleType :=
  match item with
  | SArray items => items
  | _ => [item]
  end.

(** [parsedMessages] *)
Definition parsedMessages (config : XChatConfig) (messages : list MessageInfo) : list MessageInfo :=
  flat_map
    (fun agentMsg =>
       let rawParsedMsg :=
         match parser config with
         | Some p => p (message agentMsg)
         | None => message agentMsg
         end in
       let bubbleMsgs := toArray rawParsedMsg in
       mapi (fun bubbleMsg bubbleMsgIndex =>
               let key :=
                 if Nat.ltb 1 (List.length bubbleMsgs)
                 then IdStr (show_id (id agentMsg) ++ "_" ++ show_nat bubbleMsgIndex)%string
                 else id agentMsg in
               mkInfo key bubbleMsg (status agentMsg))
            bubbleMsgs)
    messages.

(** [getFilteredMessages] *)
Definition getFilteredMessages (msgs : list MessageInfo) : list SimpleType :=
  map (fun info => message info)
      (filter (fun info => negb (status_eqb (status info) loading)
                           && negb (status_eqb (status info) error))
              msgs).

(** [getRequestMessages] *)
Definition getRequestMessages : M (list SimpleType) :=
  msgs <- getMessages ;; ret (getFilteredMessages msgs).

(** Result of a call that may throw *)
Inductive Outcome : Type :=
| Returned (h : Hook)
| Thrown (msg : string) (h : Hook).

(** The updater of the first [setMessages] of [onRequest] *)
Definition add_request_messages (config : XChatConfig) (r : nat) (m : SimpleType)
    (ori : list MessageInfo) : M (list MessageInfo) :=
  localMsg <- createMessage m local ;;
  let nextMessages := ori ++ [localMsg] in
  match requestPlaceholder config with
  | Some p =>
      if truthy_or_fn p then
        let placeholderMsg :=
          match p with
          | Computed f => f m (getFilteredMessages nextMessages)
          | Static v => v
          end in
        loadingMsg <- createMessage placeholderMsg loading ;;
        set_loadingMsgId r (Some (id loadingMsg)) ;;
        ret (nextMessages ++ [loadingMsg])
      else ret nextMessages
  | None => ret nextMessages
  end.

(** [onRequest]; the handlers passed to [agent.request] are [onUpdate],
    [onSuccess] and [onError] at the index of this activation. *)
Definition onRequest (config : XChatConfig) (m : SimpleType) (h : Hook) : Outcome :=
  match agent config with
  | None =>
      Thrown "If the onRequest method is used, the agent parameter is required!" h
  | Some _ =>
      Returned (exec (r <- new_closure m ;;
                      setMessages (add_request_messages config r m) ;;
                      history <- getRequestMessages ;;
                      agent_request (mkRequestInfo m history)) h)
  end.

(** [updateMessage] of activation [r] *)
Definition updateMessage (r : nat) (m : SimpleType) (st : MessageStatus) : M MessageInfo :=
  msgs <- getMessages ;;
  updating <- read r updatingMsgId None ;;
  match find (fun info => id_is (id info) updating) msgs with
  | None =>
      (* Create if not exist *)
      msg <- createMessage m st ;;
      setMessages (fun ori =>
                     pending <- read r loadingMsgId None ;;
                     let oriWithoutPending :=
                       filter (fun info => negb (id_is (id info) pending)) ori in
                     ret (oriWithoutPending ++ [msg])) ;;
      set_updatingMsgId r (Some (id msg)) ;;
      ret msg
  | Some msg =>
      (* Update directly *)
      setMessages (fun ori =>
                     current <- read r updatingMsgId None ;;
                     ret (map (fun info =>
                                 if id_is (id info) current
                                 then mkInfo (id info) m st
                                 else info)
                              ori)) ;;
      ret msg
  end.

Definition onUpdate (r : nat) (m : SimpleType) : M unit :=
  updateMessage r m loading ;; ret tt.

Definition onSuccess (r : nat) (m : SimpleType) : M unit :=
  updateMessage r m success ;; ret tt.

(** [ori.filter((info) => info.id !== loadingMsgId && info.id !== updatingMsgId)] *)
Definition without_request_records (r : nat) (ori : list MessageInfo) : M (list MessageInfo) :=
  pending <- read r loadingMsgId None ;;
  updating <- read r updatingMsgId None ;;
  ret (filter (fun info => negb (id_is (id info) pending) && negb (id_is (id info) updating)) ori).

(** The [setMessages] of the fallback branch, once [fallbackMsg] is known *)
Definition put_fallback (r : nat) (fallbackMsg : SimpleType) : M unit :=
  setMessages (fun ori =>
                 kept <- without_request_records r ori ;;
                 errorMsg <- createMessage fallbackMsg error ;;
                 ret (kept ++ [errorMsg])).

(** [onError] of activation [r], up to its [await]: with a fallback
    function the call is made now and the rest of the handler is
    suspended until the promise settles ([onErrorResume]). *)
Definition onError (config : XChatConfig) (r : nat) (err : ErrorObj) : M unit :=
  match requestFallback config with
  | Some fb =>
      if truthy_or_fn fb then
        match fb with
        | Computed f =>
            m <- read r req_message (SBoolean false) ;;
            history <- getRequestMessages ;;
            match f m err history with
            | Some fallbackMsg =>
                parked <- read r awaiting [] ;;
                set_awaiting r (parked ++ [fallbackMsg])
            | None => ret tt
            end
        | Static fallbackMsg => put_fallback r fallbackMsg
        end
      else
        (* Remove directly *)
        setMessages (without_request_records r)
  | None =>
      (* Remove directly *)
      setMessages (without_request_records r)
  end.

(** The rest of [onError] after [await]: the oldest suspended call of
    activation [r] resumes with its payload. *)
Definition onErrorResume (r : nat) : M unit :=
  parked <- read r awaiting [] ;;
  match parked with
  | [] => ret tt
  | fallbackMsg :: rest =>
      set_awaiting r rest ;;
      put_fallback r fallbackMsg
  end.

(* ================================================================== *)
(** ** Runs *)

(** What happens to a hook instance: the caller submits, the agent calls
    a handler of activation [r], a suspended [onError] resumes, or the
    hosting environment notifies the observers of the store. *)
Inductive Event : Type :=
| Submit (m : SimpleType)
| AgentUpdate (r : nat) (m : SimpleType)
| AgentSuccess (r : nat) (m : SimpleType)
| AgentError (r : nat) (err : ErrorObj)
| FallbackSettled (r : nat)
| Notify.

(** Handlers exist only for activations that were made *)
Definition has_closure (r : nat) (h : Hook) : bool :=
  Nat.ltb r (List.length (closures h)).

Definition step (config : XChatConfig) (h : Hook) (e : Event) : Hook :=
  match e with
  | Submit m =>
      match onRequest config m h with
      | Returned h' => h'
      | Thrown _ h' => h'
      end
  | AgentUpdate r m => if has_closure r h then exec (onUpdate r m) h else h
  | AgentSuccess r m => if has_closure r h then exec (onSuccess r m) h else h
  | AgentError r err => if has_closure r h then exec (onError config r err) h else h
  | FallbackSettled r => if has_closure r h then exec (onErrorResume r) h else h
  | Notify => mkHook (notify (messagesState h)) (idRef h) (closures h) (agentCalls h)
  end.

Definition run (config : XChatConfig) (h : Hook) (trace : list Event) : Hook :=
  fold_left (step config) trace h.

(** The committed sequence and the sequence the observers see *)
Definition store (h : Hook) : list MessageInfo := getState (messagesState h).
Definition rendered (h : Hook) : list MessageInfo := observed (messagesState h).

(* ================================================================== *)
(** ** Specification-side definitions *)

(** The settled conversation history as the specification words it: the
    payloads of the records whose status is [local] or [success], in
    store order. *)
Fixpoint settled_payloads (msgs : list MessageInfo) : list SimpleType :=
  match msgs with
  | [] => []
  | info :: rest =>
      match status info with
      | local | success => message info :: settled_payloads rest
      | loading | error => settled_payloads rest
      end
  end.

(** [Array.isArray] *)
Definition isArray (v : SimpleType) : bool :=
  match v with
  | SArray _ => true
  | _ => false
  end.

Definition throws (o : Outcome) : bool :=
  match o with
  | Thrown _ _ => true
  | Returned _ => false
  end.

Definition hook_after (o : Outcome) : Hook :=
  match o with
  | Thrown _ h => h
  | Returned h => h
  end.

(** Every generated id in the store was issued by a past value of the counter *)
Definition fresh_ids (h : Hook) : Prop :=
  forall info k, In info (store h) -> id info = msg_id k -> (k < idRef h)%N.

(** The identifier invariant of the data model *)
Definition store_ok (h : Hook) : Prop :=
  NoDup (map id (store h)) /\ fresh_ids h.

(** Seeds that leave the generated ids to the hook: distinct ids, none of
    the form [msg_<n>] *)
Definition seed_ok (defaults : option (list DefaultMessageInfo)) : Prop :=
  NoDup (map id (seed defaults)) /\
  forall info k, In info (seed defaults) -> id info <> msg_id k.

(** The pending (placeholder) id and the live-reply id of activation [r] *)
Definition pendingId (r : nat) (h : Hook) : option MsgId :=
  match closure_of r h with Some c => loadingMsgId c | None => None end.

Definition liveId (r : nat) (h : Hook) : option MsgId :=
  match closure_of r h with Some c => updatingMsgId c | None => None end.

(** The agent contract on a trace: for each activation, zero or more
    updates, then one terminal event, then nothing. [terminated r past]
    says that a terminal event of activation [r] was delivered. *)
Definition terminal_for (r : nat) (e : Event) : bool :=
  match e with
  | AgentSuccess r' _ => Nat.eqb r r'
  | AgentError r' _ => Nat.eqb r r'
  | _ => false
  end.

Definition terminated (r : nat) (past : list Event) : bool :=
  existsb (terminal_for r) past.

Definition permitted (past : list Event) (e : Event) : bool :=
  match e with
  | AgentUpdate r _ => negb (terminated r past)
  | AgentSuccess r _ => negb (terminated r past)
  | AgentError r _ => negb (terminated r past)
  | _ => true
  end.

Fixpoint contract_from (past future : list Event) : bool :=
  match future with
  | [] => true
  | e :: rest => permitted past e && contract_from (past ++ [e]) rest
  end.

Definition agent_contract (trace : list Event) : bool := contract_from [] trace.

(** The status changes the data model allows for one record *)
Definition one_directional (before after : MessageStatus) : bool :=
  match before, after with
  | local, local => true
  | loading, loading => true
  | loading, success => true
  | loading, error => true
  | success, success => true
  | error, error => true
  | _, _ => false
  end.

(** The placeholder payload of a submission of [m] on the store [ori] *)
Definition placeholder_payload (p : ValueOrFn RequestPlaceholderFn) (m : SimpleType)
    (nextMessages : list MessageInfo) : SimpleType :=
  match p with
  | Computed f => f m (getFilteredMessages nextMessages)
  | Static v => v
  end.

(** The store after a setter call that commits [next] *)
Definition commit (next : list MessageInfo) (h : Hook) : SyncState (list MessageInfo) :=
  setState (NewValue next) (messagesState h).

(** The records an error handler of activation [r] keeps *)
Definition not_of_request (r : nat) (h : Hook) (info : MessageInfo) : bool :=
  negb (id_is (id info) (pendingId r h)) && negb (id_is (id info) (liveId r h)).

(** The in-place update of the live reply of activation [r] *)
Definition overwrite_live (r : nat) (h : Hook) (m : SimpleType) (st : MessageStatus)
    (info : MessageInfo) : MessageInfo :=
  if id_is (id info) (liveId r h) then mkInfo (id info) m st else info.

Definition set_live (i : MsgId) (c : Closure) : Closure :=
  mkClosure (req_message c) (loadingMsgId c) (Some i) (awaiting c).

Definition set_parked (v : list SimpleType) (c : Closure) : Closure :=
  mkClosure (req_message c) (loadingMsgId c) (updatingMsgId c) v.

Definition parked (r : nat) (h : Hook) : list SimpleType :=
  match closure_of r h with Some c => awaiting c | None => [] end.

(** The handler call an agent event stands for: activation, payload and
    the status [updateMessage] is called with *)
Definition update_event (e : Event) : option (nat * SimpleType * MessageStatus) :=
  match e with
  | AgentUpdate r m => Some (r, m, loading)
  | AgentSuccess r m => Some (r, m, success)
  | _ => None
  end.

(** What one event does, as far as the store, the counter and the
    live-reply ids go:
    - nothing ([Quiet]; the observers may catch up);
    - some records are dropped and records with newly generated ids are
      appended, no live-reply id changes ([Appends]);
    - the same, the one appended record becoming the live reply of an
      activation ([Creates]);
    - the live reply of an activation is overwritten in place
      ([Overwrites]). *)
Inductive Effect (e : Event) (h h' : Hook) : Prop :=
| Quiet :
    store h' = store h ->
    idRef h' = idRef h ->
    (forall r, liveId r h' = liveId r h) ->
    rendered h' = rendered h \/ rendered h' = store h ->
    Effect e h h'
| Appends (keep : MessageInfo -> bool) (news : list MessageInfo) :
    store h' = filter keep (store h) ++ news ->
    (idRef h <= idRef h')%N ->
    NoDup (map id news) ->
    (forall info, In info news ->
       exists k, id info = msg_id k /\ (idRef h <= k < idRef h')%N) ->
    (forall r, liveId r h' = liveId r h) ->
    rendered h' = rendered h ->
    update_event e = None ->
    Effect e h h'
| Creates (r : nat) (m : SimpleType) (st : MessageStatus) (keep : MessageInfo -> bool) :
    update_event e = Some (r, m, st) ->
    store h' = filter keep (store h) ++ [mkInfo (msg_id (idRef h)) m st] ->
    idRef h' = (idRef h + 1)%N ->
    liveId r h' = Some (msg_id (idRef h)) ->
    (forall r', r' <> r -> liveId r' h' = liveId r' h) ->
    rendered h' = rendered h ->
    Effect e h h'
| Overwrites (r : nat) (m : SimpleType) (st : MessageStatus) (i : MsgId) :
    update_event e = Some (r, m, st) ->
    liveId r h = Some i ->
    store h' = map (fun info => if id_eqb (id info) i then mkInfo (id info) m st else info)
                   (store h) ->
    idRef h' = idRef h ->
    (forall r', liveId r' h' = liveId r' h) ->
    rendered h' = rendered h ->
    Effect e h h'.

(** What holds of the live replies along a run that obeys the agent
    contract: live-reply ids were issued by the counter, two activations
    never share one, and the live reply of an activation that has not
    received its terminal event is a [loading] record. *)
Definition live_ok (past : list Event) (h : Hook) : Prop :=
  store_ok h /\
  (forall r i, liveId r h = Some i -> exists k, i = msg_id k /\ (k < idRef h)%N) /\
  (forall r r' i, liveId r h = Some i -> liveId r' h = Some i -> r = r') /\
  (forall r i info,
      terminated r past = false -> liveId r h = Some i ->
      In info (store h) -> id info = i -> status info = loading).

(** The state of one activation as the design notes describe it: it
    awaits its first event (with or without a placeholder record), or it
    has a live reply. [Phase] and the functions below say which records
    and closure variables an activation made on the hook instance [h0]
    has in each phase. *)
Inductive Phase : Type :=
| Waiting (placeholder : option SimpleType)
| Live (payload : SimpleType) (st : MessageStatus) (had_placeholder : bool).

Definition next_phase (ph : Phase) (m : SimpleType) (st : MessageStatus) : Phase :=
  match ph with
  | Waiting None => Live m st false
  | Waiting (Some _) => Live m st true
  | Live _ _ b => Live m st b
  end.

Definition bool_N (b : bool) : N := if b then 1%N else 0%N.

Definition pend_of (c : N) (ph : Phase) : option MsgId :=
  match ph with
  | Waiting None => None
  | Waiting (Some _) => Some (msg_id (c + 1))
  | Live _ _ b => if b then Some (msg_id (c + 1)) else None
  end.

Definition live_of (c : N) (ph : Phase) : option MsgId :=
  match ph with
  | Waiting _ => None
  | Live _ _ b => Some (msg_id (c + 1 + bool_N b))
  end.

Definition tail_of (c : N) (ph : Phase) : list MessageInfo :=
  match ph with
  | Waiting None => []
  | Waiting (Some x) => [mkInfo (msg_id (c + 1)) x loading]
  | Live x st b => [mkInfo (msg_id (c + 1 + bool_N b)) x st]
  end.

Definition used (ph : Phase) : N :=
  match ph with
  | Waiting None => 1
  | Waiting (Some _) => 2
  | Live _ _ b => 2 + bool_N b
  end.

(** [h] is [h0] plus one activation for [m] in phase [ph], nothing else
    having happened since *)
Definition activation (h0 : Hook) (m : SimpleType) (ph : Phase) (h : Hook) : Prop :=
  store h = store h0 ++ mkInfo (msg_id (idRef h0)) m local :: tail_of (idRef h0) ph /\
  idRef h = (idRef h0 + used ph)%N /\
  closures h =
    closures h0 ++ [mkClosure m (pend_of (idRef h0) ph) (live_of (idRef h0) ph) []].

(** The placeholder payload a configuration yields for a submission *)
Definition placeholder_of (config : XChatConfig) (m : SimpleType) (h : Hook) : option SimpleType :=
  match requestPlaceholder config with
  | Some p =>
      if truthy_or_fn p
      then Some (placeholder_payload p m (store h ++ [mkInfo (msg_id (idRef h)) m local]))
      else None
  | None => None
  end.

(** [l.filter((info) => info.id !== v)] and the in-place rewrite of the
    records whose id is [i] *)
Definition drop_id (v : option MsgId) (l : list MessageInfo) : list MessageInfo :=
  filter (fun info => negb (id_is (id info) v)) l.

Definition rewrite_id (i : MsgId) (m : SimpleType) (st : MessageStatus)
    (l : list MessageInfo) : list MessageInfo :=
  map (fun info => if id_eqb (id info) i then mkInfo (id info) m st else info) l.

(** An activation that has received no terminal event: its placeholder
    or live reply, if any, is a [loading] record *)
Definition streaming (ph : Phase) : Prop :=
  match ph with
  | Waiting _ => True
  | Live _ st _ => st = loading
  end.

(** The payload the parser yields for a stored record *)
Definition parsed (config : XChatConfig) (info : MessageInfo) : SimpleType :=
  match parser config with
  | Some p => p (message info)
  | None => message info
  end.

(** The activation an event is delivered to *)
Definition target (e : Event) : option nat :=
  match e with
  | Submit _ => None
  | AgentUpdate r _ => Some r
  | AgentSuccess r _ => Some r
  | AgentError r _ => Some r
  | FallbackSettled r => Some r
  | Notify => None
  end.

(** The records of [h] that are neither the placeholder nor the live
    reply of activation [r] are still in [h'], unchanged and in the same
    order, followed at most by one newly created record. *)
Definition frame (r : nat) (h h' : Hook) : Prop :=
  exists news,
    filter (not_of_request r h) (store h') = filter (not_of_request r h) (store h) ++ news /\
    (forall x, In x news -> id x = msg_id (idRef h)) /\
    List.length news <= 1.

(** Number of underscores in a string *)
Fixpoint underscores (s : string) : nat :=
  match s with
  | EmptyString => 0
  | String c rest => (if Ascii.eqb c "_" then 1 else 0) + underscores rest
  end.

(** The ids the hook itself issues: [msg_<n>] and [default_<n>] *)
Definition hook_id (i : MsgId) : Prop :=
  (exists k, i = msg_id k) \/ (exists n, i = default_id n).

(* ================================================================== *)
(** ** The token table of the documentation site

    Strings stand for JavaScript strings whose code units are below 256
    (token and component names are ASCII identifiers). *)

(** [toLowerCase] on one code unit below 256: the letters A-Z and the
    capital letters U+00C0-U+00DE (the multiplication sign U+00D7 apart)
    move up by 32, every other code unit stays. *)
Definition lower_char (c : ascii) : ascii :=
  let n := nat_of_ascii c in
  if (Nat.leb 65 n && Nat.leb n 90)
     || (Nat.leb 192 n && Nat.leb n 222 && negb (Nat.eqb n 215))
  then ascii_of_nat (n + 32)
  else c.

Fixpoint toLowerCase (s : string) : string :=
  match s with
  | EmptyString => EmptyString
  | String c rest => String (lower_char c) (toLowerCase rest)
  end.

(** [s.includes(sub)] *)
Fixpoint includes (s sub : string) : bool :=
  match s with
  | EmptyString => String.prefix sub EmptyString
  | String _ rest => String.prefix sub s || includes rest sub
  end.

(** [compare]: the comparator the global token table is sorted with *)
Definition compare (token1 token2 : string) : Z :=
  let hasColor1 := includes (toLowerCase token1) "color" in
  let hasColor2 := includes (toLowerCase token2) "color" in
  if hasColor1 && negb hasColor2 then (-1)%Z
  else if negb hasColor1 && hasColor2 then 1%Z
  else if String.ltb token1 token2 then (-1)%Z else 1%Z.

(** [component.split(',')] *)
Fixpoint split_comma (s : string) : list string :=
  match s with
  | EmptyString => [EmptyString]
  | String c rest =>
      if Ascii.eqb c ","
      then EmptyString :: split_comma rest
      else match split_comma rest with
           | first :: others => String c first :: others
           | [] => [String c EmptyString]
           end
  end.

(** [globalTokenSet.add(token)] on a [Set] kept in insertion order *)
Definition set_add (globalTokenSet : list string) (token : string) : list string :=
  if existsb (String.eqb token) globalTokenSet
  then globalTokenSet
  else globalTokenSet ++ [token].

(** [mergedGlobalTokens] of [ComponentTokenTable]. The imported table
    [tokenData] is a parameter: [tokenData comp] is the [global] list of
    the entry of [comp], [None] when there is no entry or no such list. *)
Definition mergedGlobalTokens (tokenData : string -> option (list string))
    (component : string) : list string :=
  fold_left
    (fun globalTokenSet comp =>
       let globalTokens := match tokenData comp with Some g => g | None => [] end in
       fold_left set_add globalTokens globalTokenSet)
    (split_comma component) [].

(* ================================================================== *)
(** ** Identifiers *)

Lemma show_N_inj (a b : N) : show_N a = show_N b -> a = b.
Proof.
  unfold show_N. intro E.
  apply DecimalN.Unsigned.to_uint_inj.
  assert (S : Some (N.to_uint a) = Some (N.to_uint b)).
  { rewrite <- (NilEmpty.usu (N.to_uint a)), <- (NilEmpty.usu (N.to_uint b)).
    now rewrite E. }
  now injection S.
Qed.

Lemma show_nat_inj (a b : nat) : show_nat a = show_nat b -> a = b.
Proof.
  unfold show_nat. intro E.
  apply DecimalNat.Unsigned.to_uint_inj.
  assert (S : Some (Nat.to_uint a) = Some (Nat.to_uint b)).
  { rewrite <- (NilEmpty.usu (Nat.to_uint a)), <- (NilEmpty.usu (Nat.to_uint b)).
    now rewrite E. }
  now injection S.
Qed.

Lemma msg_id_inj (a b : N) : msg_id a = msg_id b -> a = b.
Proof.
  unfold msg_id. intro E. injection E as E. now apply show_N_inj.
Qed.

Lemma default_id_inj (a b : nat) : default_id a = default_id b -> a = b.
Proof.
  unfold default_id. intro E. injection E as E. now apply show_nat_inj.
Qed.

Lemma default_id_not_generated (i : nat) (k : N) : default_id i <> msg_id k.
Proof. unfold default_id, msg_id. simpl. discriminate. Qed.

Lemma id_eqb_eq (a b : MsgId) : id_eqb a b = true <-> a = b.
Proof.
  destruct a as [x|x], b as [y|y]; simpl; split; intro E; try discriminate.
  - apply Z.eqb_eq in E. now subst.
  - injection E as ->. apply Z.eqb_refl.
  - apply String.eqb_eq in E. now subst.
  - injection E as ->. apply String.eqb_refl.
Qed.

Lemma id_eqb_refl (a : MsgId) : id_eqb a a = true.
Proof. now apply id_eqb_eq. Qed.

Lemma id_eqb_neq (a b : MsgId) : id_eqb a b = false <-> a <> b.
Proof.
  split.
  - intros E ->. rewrite id_eqb_refl in E. discriminate.
  - intro N. destruct (id_eqb a b) eqn:E; [|reflexivity].
    apply id_eqb_eq in E. contradiction.
Qed.

Lemma id_is_true (a : MsgId) (v : option MsgId) : id_is a v = true <-> v = Some a.
Proof.
  destruct v as [b|]; simpl.
  - rewrite id_eqb_eq. split; [intros ->; reflexivity | intro E; now injection E].
  - split; discriminate.
Qed.

Lemma id_is_false (a : MsgId) (v : option MsgId) : id_is a v = false <-> v <> Some a.
Proof.
  rewrite <- id_is_true. destruct (id_is a v); split; congruence.
Qed.

(* ================================================================== *)
(** ** Filtered history *)

Lemma getFilteredMessages_cons (info : MessageInfo) (rest : list MessageInfo) :
  getFilteredMessages (info :: rest) =
  match status info with
  | local | success => message info :: getFilteredMessages rest
  | loading | error => getFilteredMessages rest
  end.
Proof. unfold getFilteredMessages. simpl. now destruct (status info). Qed.

Lemma getFilteredMessages_app (l1 l2 : list MessageInfo) :
  getFilteredMessages (l1 ++ l2) = getFilteredMessages l1 ++ getFilteredMessages l2.
Proof. unfold getFilteredMessages. now rewrite filter_app, map_app. Qed.

(** C5. For every store content, [getFilteredMessages] (and so
    [getRequestMessages] on the committed store) returns exactly the
    payloads of the [local] and [success] records in their original
    relative order; a [loading] or [error] record contributes nothing,
    wherever it stands. *)
Theorem filtered_history_is_settled_payloads :
  (forall msgs : list MessageInfo, getFilteredMessages msgs = settled_payloads msgs) /\
  (forall h : Hook, fst (getRequestMessages h) = settled_payloads (store h)) /\
  (forall l1 l2 i m,
      getFilteredMessages (l1 ++ mkInfo i m loading :: l2) = getFilteredMessages (l1 ++ l2) /\
      getFilteredMessages (l1 ++ mkInfo i m error :: l2) = getFilteredMessages (l1 ++ l2) /\
      getFilteredMessages (l1 ++ mkInfo i m local :: l2) =
        getFilteredMessages l1 ++ m :: getFilteredMessages l2 /\
      getFilteredMessages (l1 ++ mkInfo i m success :: l2) =
        getFilteredMessages l1 ++ m :: getFilteredMessages l2).
Proof.
  assert (S : forall msgs, getFilteredMessages msgs = settled_payloads msgs).
  { induction msgs as [|info rest IH]; [reflexivity|].
    rewrite getFilteredMessages_cons. simpl. rewrite IH. reflexivity. }
  split; [exact S|]. split.
  - intro h. unfold getRequestMessages, getMessages, bind, ret. simpl. apply S.
  - intros l1 l2 i m.
    rewrite !getFilteredMessages_app, !getFilteredMessages_cons. simpl.
    repeat split; reflexivity.
Qed.

(* ================================================================== *)
(** ** Display records *)

Lemma toArray_not_array (v : SimpleType) : isArray v = false -> toArray v = [v].
Proof. destruct v; simpl; intro E; (reflexivity || discriminate). Qed.

Lemma parsedMessages_one (config : XChatConfig) (info : MessageInfo) :
  match parser config with Some p => p (message info) | None => message info end
  = message info ->
  isArray (message info) = false ->
  parsedMessages config [info] = [info].
Proof.
  intros P A. unfold parsedMessages. simpl.
  rewrite P, (toArray_not_array _ A). simpl. now destruct info.
Qed.

Lemma parsedMessages_cons (config : XChatConfig) (info : MessageInfo) (rest : list MessageInfo) :
  parsedMessages config (info :: rest) = parsedMessages config [info] ++ parsedMessages config rest.
Proof. unfold parsedMessages. simpl. now rewrite app_nil_r. Qed.

Lemma parsedMessages_plain (config : XChatConfig) (msgs : list MessageInfo) :
  (forall info, In info msgs ->
     match parser config with Some p => p (message info) | None => message info end
     = message info) ->
  Forall (fun info => isArray (message info) = false) msgs ->
  parsedMessages config msgs = msgs.
Proof.
  induction msgs as [|info rest IH]; intros P A; [reflexivity|].
  inversion A as [|? ? A1 A2]; subst.
  rewrite parsedMessages_cons, parsedMessages_one, IH; auto using in_eq, in_cons.
Qed.

(** C6 (as stated) fails: with no parser, and with the identity parser, a
    stored record whose payload is an array of two items yields two
    display records with suffixed ids, and one whose payload is an empty
    array yields none. *)
Lemma array_payload_is_fanned_out :
  parsedMessages (mkConfig None None None None None)
    [mkInfo (IdStr "msg_0") (SArray [SString "a"; SString "b"]) success]
  = [mkInfo (IdStr "msg_0_0") (SString "a") success;
     mkInfo (IdStr "msg_0_1") (SString "b") success]
  /\
  parsedMessages (mkConfig None None (Some (fun x => x)) None None)
    [mkInfo (IdStr "msg_0") (SArray [SString "a"; SString "b"]) success]
  <> [mkInfo (IdStr "msg_0") (SArray [SString "a"; SString "b"]) success]
  /\
  List.length (parsedMessages (mkConfig None None None None None)
                 [mkInfo (IdStr "msg_0") (SArray []) local]) = 0.
Proof. repeat split. discriminate. Qed.

(** C6 (amended). When the parser is absent or the identity function, for
    every store content in which no payload is an array the display
    records are the stored records: same count, same order, same ids,
    payloads and statuses. *)
Theorem identity_parser_mirrors_store (config : XChatConfig) (msgs : list MessageInfo) :
  parser config = None \/ (exists p, parser config = Some p /\ forall v, p v = v) ->
  Forall (fun info => isArray (message info) = false) msgs ->
  parsedMessages config msgs = msgs /\
  List.length (parsedMessages config msgs) = List.length msgs /\
  map id (parsedMessages config msgs) = map id msgs.
Proof.
  intros P A.
  assert (E : parsedMessages config msgs = msgs).
  { apply parsedMessages_plain; [|exact A].
    intros info _. destruct P as [-> | [p [-> I]]]; [reflexivity | apply I]. }
  rewrite E. repeat split.
Qed.

Lemma identity_parser_mirrors_store_witness :
  parsedMessages (mkConfig None None (Some (fun x => x)) None None)
    [mkInfo (IdStr "default_0") (SString "hi") local;
     mkInfo (IdStr "msg_0") (SNumber 7) success] =
  [mkInfo (IdStr "default_0") (SString "hi") local;
   mkInfo (IdStr "msg_0") (SNumber 7) success].
Proof.
  apply (identity_parser_mirrors_store
           (mkConfig None None (Some (fun x => x)) None None)
           [mkInfo (IdStr "default_0") (SString "hi") local;
            mkInfo (IdStr "msg_0") (SNumber 7) success]).
  - right. exists (fun x => x). split; reflexivity.
  - repeat constructor.
Defined.

(* ================================================================== *)
(** ** The store *)

(** C9. Immediately after a setter call, given a new sequence or an
    updater function, the synchronous getter returns the newly committed
    value, while the value the observers see is still the one from before
    the call; the same holds for [setMessages] and [getMessages] of the
    hook, at any point of any run of the store. *)
Theorem getter_reads_own_writes :
  (forall (T : Type) (ops : list (StoreOp T)) (init v : T),
      let s := fold_left store_op ops (useSyncState init) in
      getState (setState (NewValue v) s) = v /\
      observed (setState (NewValue v) s) = observed s) /\
  (forall (T : Type) (ops : list (StoreOp T)) (init : T) (f : T -> T),
      let s := fold_left store_op ops (useSyncState init) in
      getState (setState (Updater f) s) = f (getState s) /\
      observed (setState (Updater f) s) = observed s) /\
  (forall (updater : list MessageInfo -> M (list MessageInfo)) (h : Hook),
      fst (getMessages (exec (setMessages updater) h)) = fst (updater (store h) h) /\
      rendered (exec (setMessages updater) h) = rendered (snd (updater (store h) h))).
Proof.
  repeat split.
  - unfold exec, setMessages, getMessages, store. simpl.
    destruct (updater (getState (messagesState h)) h). reflexivity.
  - unfold exec, setMessages, rendered, store. simpl.
    destruct (updater (getState (messagesState h)) h). reflexivity.
Qed.

(* ================================================================== *)
(** ** Submitting without an agent *)

(** C7. [onRequest] throws if and only if no agent is configured, and a
    call that throws leaves the hook instance (store, counter, closures)
    as it was. *)
Theorem onRequest_throws_iff_no_agent (config : XChatConfig) (m : SimpleType) (h : Hook) :
  (throws (onRequest config m h) = true <-> agent config = None) /\
  (throws (onRequest config m h) = true -> hook_after (onRequest config m h) = h) /\
  (agent config = None ->
   onRequest config m h =
   Thrown "If the onRequest method is used, the agent parameter is required!" h).
Proof.
  unfold onRequest. destruct (agent config) as [a|]; simpl.
  - repeat split; discriminate.
  - repeat split; reflexivity.
Qed.

(* ================================================================== *)
(** ** Closure variables *)

Lemma update_nth_length {A : Type} (n : nat) (f : A -> A) (l : list A) :
  List.length (update_nth n f l) = List.length l.
Proof.
  revert n. induction l as [|x rest IH]; intros [|n]; simpl; auto.
Qed.

Lemma nth_error_update_nth_same {A : Type} (n : nat) (f : A -> A) (l : list A) :
  nth_error (update_nth n f l) n = option_map f (nth_error l n).
Proof.
  revert n. induction l as [|x rest IH]; intros [|n]; simpl; auto.
Qed.

Lemma nth_error_update_nth_other {A : Type} (n k : nat) (f : A -> A) (l : list A) :
  n <> k -> nth_error (update_nth n f l) k = nth_error l k.
Proof.
  revert n k. induction l as [|x rest IH]; intros [|n] [|k] N; simpl; auto.
  congruence.
Qed.

Lemma update_nth_last {A : Type} (f : A -> A) (l : list A) (c : A) :
  update_nth (List.length l) f (l ++ [c]) = l ++ [f c].
Proof.
  induction l as [|x rest IH]; simpl; [reflexivity | now rewrite IH].
Qed.

Lemma has_closure_some (r : nat) (h : Hook) :
  has_closure r h = true -> exists c, closure_of r h = Some c.
Proof.
  unfold has_closure, closure_of. intro L. apply Nat.ltb_lt in L.
  destruct (nth_error (closures h) r) as [c|] eqn:E; [now exists c|].
  apply nth_error_None in E. lia.
Qed.

(* ================================================================== *)
(** ** What each handler does to the hook instance *)

Lemma submit_plain (config : XChatConfig) (a : XAgent) (m : SimpleType) (h : Hook) :
  agent config = Some a ->
  match requestPlaceholder config with Some p => truthy_or_fn p | None => false end = false ->
  step config h (Submit m) =
  mkHook (setState (NewValue (store h ++ [mkInfo (msg_id (idRef h)) m local])) (messagesState h))
         (idRef h + 1)
         (closures h ++ [mkClosure m None None []])
         (agentCalls h ++
          [mkRequestInfo m (getFilteredMessages (store h ++ [mkInfo (msg_id (idRef h)) m local]))]).
Proof.
  intros A P. unfold step, onRequest. rewrite A.
  unfold exec, bind, new_closure, setMessages, add_request_messages, bind, createMessage.
  simpl.
  destruct (requestPlaceholder config) as [p|].
  - rewrite P. reflexivity.
  - reflexivity.
Qed.

Lemma submit_placeholder (config : XChatConfig) (a : XAgent) (p : ValueOrFn RequestPlaceholderFn)
    (m : SimpleType) (h : Hook) :
  agent config = Some a ->
  requestPlaceholder config = Some p ->
  truthy_or_fn p = true ->
  let localMsg := mkInfo (msg_id (idRef h)) m local in
  let loadingMsg :=
    mkInfo (msg_id (idRef h + 1)) (placeholder_payload p m (store h ++ [localMsg])) loading in
  step config h (Submit m) =
  mkHook (setState (NewValue ((store h ++ [localMsg]) ++ [loadingMsg])) (messagesState h))
         (idRef h + 1 + 1)
         (closures h ++ [mkClosure m (Some (msg_id (idRef h + 1))) None []])
         (agentCalls h ++
          [mkRequestInfo m (getFilteredMessages ((store h ++ [localMsg]) ++ [loadingMsg]))]).
Proof.
  intros A P T. unfold step, onRequest. rewrite A.
  unfold exec, bind, new_closure, setMessages, add_request_messages, bind, createMessage.
  simpl. rewrite P, T.
  unfold bind, set_loadingMsgId, modify_closure, ret. simpl.
  rewrite update_nth_last. reflexivity.
Qed.

Lemma updateMessage_create (r : nat) (m : SimpleType) (st : MessageStatus) (h : Hook) :
  find (fun info => id_is (id info) (liveId r h)) (store h) = None ->
  exec (updateMessage r m st) h =
  mkHook (commit (filter (fun info => negb (id_is (id info) (pendingId r h))) (store h)
                  ++ [mkInfo (msg_id (idRef h)) m st]) h)
         (idRef h + 1)
         (update_nth r (set_live (msg_id (idRef h))) (closures h))
         (agentCalls h).
Proof.
  intro F. unfold exec, updateMessage, bind, getMessages, read. simpl.
  fold (liveId r h). fold (store h). rewrite F.
  reflexivity.
Qed.

Lemma updateMessage_overwrite (r : nat) (m : SimpleType) (st : MessageStatus) (h : Hook)
    (found : MessageInfo) :
  find (fun info => id_is (id info) (liveId r h)) (store h) = Some found ->
  exec (updateMessage r m st) h =
  mkHook (commit (map (overwrite_live r h m st) (store h)) h)
         (idRef h) (closures h) (agentCalls h).
Proof.
  intro F. unfold exec, updateMessage, bind, getMessages, read. simpl.
  fold (liveId r h). fold (store h). rewrite F.
  reflexivity.
Qed.

Lemma remove_request_records (r : nat) (h : Hook) :
  exec (setMessages (without_request_records r)) h =
  mkHook (commit (filter (not_of_request r h) (store h)) h)
         (idRef h) (closures h) (agentCalls h).
Proof. reflexivity. Qed.

Lemma put_fallback_eq (r : nat) (v : SimpleType) (h : Hook) :
  exec (put_fallback r v) h =
  mkHook (commit (filter (not_of_request r h) (store h) ++ [mkInfo (msg_id (idRef h)) v error]) h)
         (idRef h + 1) (closures h) (agentCalls h).
Proof. reflexivity. Qed.

Lemma onError_no_fallback (config : XChatConfig) (r : nat) (err : ErrorObj) (h : Hook) :
  match requestFallback config with Some fb => truthy_or_fn fb | None => false end = false ->
  exec (onError config r err) h = exec (setMessages (without_request_records r)) h.
Proof.
  unfold onError. destruct (requestFallback config) as [fb|]; [|reflexivity].
  now intros ->.
Qed.

Lemma onError_static (config : XChatConfig) (r : nat) (err : ErrorObj) (v : SimpleType) (h : Hook) :
  requestFallback config = Some (Static v) ->
  truthy v = true ->
  exec (onError config r err) h = exec (put_fallback r v) h.
Proof. unfold onError. intros -> T. simpl. now rewrite T. Qed.

Lemma onError_computed (config : XChatConfig) (r : nat) (err : ErrorObj) (f : RequestFallbackFn)
    (h : Hook) :
  requestFallback config = Some (Computed f) ->
  exec (onError config r err) h =
  match f (match closure_of r h with Some c => req_message c | None => SBoolean false end)
          err (getFilteredMessages (store h)) with
  | Some v =>
      mkHook (messagesState h) (idRef h)
             (update_nth r (set_parked (parked r h ++ [v])) (closures h)) (agentCalls h)
  | None => h
  end.
Proof.
  unfold onError. intros ->. simpl.
  unfold exec, bind, read, getRequestMessages, getMessages, bind, ret. simpl.
  fold (store h).
  destruct (f _ err (getFilteredMessages (store h))); [reflexivity|now destruct h].
Qed.

Lemma onErrorResume_idle (r : nat) (h : Hook) :
  parked r h = [] -> exec (onErrorResume r) h = h.
Proof.
  unfold exec, onErrorResume, bind, read. fold (parked r h). intros ->. reflexivity.
Qed.

Lemma onErrorResume_settled (r : nat) (v : SimpleType) (rest : list SimpleType) (h : Hook) :
  parked r h = v :: rest ->
  exec (onErrorResume r) h =
  exec (put_fallback r v)
       (mkHook (messagesState h) (idRef h) (update_nth r (set_parked rest) (closures h))
               (agentCalls h)).
Proof.
  unfold exec, onErrorResume, bind, read. fold (parked r h). intros ->. reflexivity.
Qed.

(* ================================================================== *)
(** ** The effect of one event *)

Lemma liveId_closures (r : nat) (h h' : Hook) :
  closures h' = closures h -> liveId r h' = liveId r h.
Proof. unfold liveId, closure_of. now intros ->. Qed.

Lemma liveId_new_closure (r : nat) (h h' : Hook) (m : SimpleType) (pend : option MsgId) :
  closures h' = closures h ++ [mkClosure m pend None []] -> liveId r h' = liveId r h.
Proof.
  unfold liveId, closure_of. intros ->.
  destruct (Nat.lt_ge_cases r (List.length (closures h))) as [L|L].
  - now rewrite nth_error_app1.
  - rewrite nth_error_app2 by assumption.
    assert (N : nth_error (closures h) r = None) by now apply nth_error_None.
    rewrite N. destruct (r - List.length (closures h)) as [|[|k]]; reflexivity.
Qed.

Lemma liveId_set_parked (r r' : nat) (v : list SimpleType) (h h' : Hook) :
  closures h' = update_nth r (set_parked v) (closures h) -> liveId r' h' = liveId r' h.
Proof.
  unfold liveId, closure_of. intros ->.
  destruct (Nat.eq_dec r r') as [<-|N].
  - rewrite nth_error_update_nth_same. now destruct (nth_error (closures h) r).
  - now rewrite nth_error_update_nth_other.
Qed.

Lemma liveId_set_live (r : nat) (i : MsgId) (h h' : Hook) :
  has_closure r h = true ->
  closures h' = update_nth r (set_live i) (closures h) ->
  liveId r h' = Some i /\ forall r', r' <> r -> liveId r' h' = liveId r' h.
Proof.
  intros C E. apply has_closure_some in C as [c C]. unfold liveId, closure_of in *.
  rewrite E. split.
  - rewrite nth_error_update_nth_same, C. reflexivity.
  - intros r' N. rewrite nth_error_update_nth_other; [reflexivity | congruence].
Qed.

Lemma find_live_some (r : nat) (h : Hook) (found : MessageInfo) :
  find (fun info => id_is (id info) (liveId r h)) (store h) = Some found ->
  liveId r h = Some (id found).
Proof. intro F. apply find_some in F as [_ F]. now apply id_is_true. Qed.

Lemma effect_of_create (e : Event) (r : nat) (m : SimpleType) (st : MessageStatus) (h : Hook) :
  update_event e = Some (r, m, st) ->
  has_closure r h = true ->
  Effect e h (exec (updateMessage r m st) h).
Proof.
  intros U C.
  destruct (find (fun info => id_is (id info) (liveId r h)) (store h)) as [found|] eqn:F.
  - rewrite (updateMessage_overwrite _ _ _ _ _ F).
    apply (Overwrites e _ _ r m st (id found)); try reflexivity; try assumption.
    + now apply find_live_some.
    + unfold store, commit. simpl. apply map_ext. intro info.
      unfold overwrite_live. rewrite (find_live_some _ _ _ F). reflexivity.
  - rewrite (updateMessage_create _ _ _ _ F).
    destruct (liveId_set_live r (msg_id (idRef h)) h
                (mkHook (commit (filter (fun info => negb (id_is (id info) (pendingId r h)))
                                        (store h) ++ [mkInfo (msg_id (idRef h)) m st]) h)
                        (idRef h + 1)
                        (update_nth r (set_live (msg_id (idRef h))) (closures h))
                        (agentCalls h)) C eq_refl) as [L1 L2].
    apply (Creates e _ _ r m st (fun info => negb (id_is (id info) (pendingId r h))));
      try reflexivity; assumption.
Qed.

Lemma fresh_single (c c' : N) (m : SimpleType) (st : MessageStatus) (info : MessageInfo) :
  (c < c')%N ->
  In info [mkInfo (msg_id c) m st] ->
  exists k, id info = msg_id k /\ (c <= k < c')%N.
Proof.
  intros L [<-|[]]. exists c. simpl. split; [reflexivity | lia].
Qed.

Lemma effect_of_fallback (e : Event) (r : nat) (v : SimpleType) (h : Hook) :
  update_event e = None ->
  Effect e h (exec (put_fallback r v) h).
Proof.
  intro U. rewrite put_fallback_eq.
  apply (Appends e _ _ (not_of_request r h) [mkInfo (msg_id (idRef h)) v error]);
    try reflexivity; try assumption; simpl.
  - lia.
  - repeat constructor. intros [].
  - intros info I. apply (fresh_single _ _ v error); [lia | exact I].
Qed.

Lemma effect_of_removal (e : Event) (r : nat) (h : Hook) :
  update_event e = None ->
  Effect e h (exec (setMessages (without_request_records r)) h).
Proof.
  intro U. rewrite remove_request_records.
  apply (Appends e _ _ (not_of_request r h) []);
    try reflexivity; try assumption; simpl.
  - now rewrite app_nil_r.
  - constructor.
  - intros info [].
Qed.

Lemma effect_refl (e : Event) (h : Hook) : Effect e h h.
Proof. apply Quiet; auto. Qed.

Lemma filter_all {A : Type} (l : list A) : filter (fun _ => true) l = l.
Proof. induction l as [|x rest IH]; simpl; [reflexivity | now rewrite IH]. Qed.

Lemma effect_of_submit (config : XChatConfig) (m : SimpleType) (h : Hook) :
  Effect (Submit m) h (step config h (Submit m)).
Proof.
  destruct (agent config) as [a|] eqn:A.
  - destruct (match requestPlaceholder config with
              | Some p => truthy_or_fn p
              | None => false
              end) eqn:P.
    + destruct (requestPlaceholder config) as [p|] eqn:RP; [|discriminate].
      rewrite (submit_placeholder config a p m h A RP P).
      eapply (Appends _ _ _ (fun _ => true)
                [mkInfo (msg_id (idRef h)) m local;
                 mkInfo (msg_id (idRef h + 1)) _ loading]);
        try reflexivity; simpl.
      * unfold store, commit. simpl. rewrite filter_all, <- app_assoc. reflexivity.
      * lia.
      * constructor; [|repeat constructor; intros []].
        intros [E|[]]. apply msg_id_inj in E. lia.
      * intros info [<-|[<-|[]]]; simpl.
        -- exists (idRef h). split; [reflexivity | lia].
        -- exists (idRef h + 1)%N. split; [reflexivity | lia].
      * intro r. now apply (liveId_new_closure r h _ m (Some (msg_id (idRef h + 1)))).
    + rewrite (submit_plain config a m h A P).
      eapply (Appends _ _ _ (fun _ => true) [mkInfo (msg_id (idRef h)) m local]);
        try reflexivity; simpl.
      * unfold store, commit. simpl. now rewrite filter_all.
      * lia.
      * repeat constructor. intros [].
      * intros info I. apply (fresh_single _ _ m local); [lia | exact I].
      * intro r. now apply (liveId_new_closure r h _ m None).
  - unfold step, onRequest. rewrite A. apply effect_refl.
Qed.

Lemma effect_of_error (config : XChatConfig) (r : nat) (err : ErrorObj) (h : Hook) :
  Effect (AgentError r err) h (exec (onError config r err) h).
Proof.
  destruct (requestFallback config) as [[v|f]|] eqn:F.
  - destruct (truthy v) eqn:T.
    + rewrite (onError_static config r err v h F T). now apply effect_of_fallback.
    + rewrite onError_no_fallback by now rewrite F.
      now apply effect_of_removal.
  - rewrite (onError_computed config r err f h F).
    destruct (f _ err (getFilteredMessages (store h))) as [v|]; [|apply effect_refl].
    apply Quiet; try reflexivity; [|now left].
    intro r'. now apply (liveId_set_parked r r' (parked r h ++ [v]) h).
  - rewrite onError_no_fallback by now rewrite F.
    now apply effect_of_removal.
Qed.

Lemma effect_of_resume (r : nat) (h : Hook) :
  Effect (FallbackSettled r) h (exec (onErrorResume r) h).
Proof.
  destruct (parked r h) as [|v rest] eqn:P.
  - rewrite (onErrorResume_idle r h P). apply effect_refl.
  - rewrite (onErrorResume_settled r v rest h P), put_fallback_eq.
    eapply (Appends _ _ _ _ [mkInfo (msg_id (idRef h)) v error]);
      try reflexivity; simpl.
    + lia.
    + repeat constructor. intros [].
    + intros info I. apply (fresh_single _ _ v error); [lia | exact I].
    + intro r'. now apply (liveId_set_parked r r' rest h).
Qed.

(** Every event has one of the four effects. *)
Lemma step_effect (config : XChatConfig) (h : Hook) (e : Event) :
  Effect e h (step config h e).
Proof.
  destruct e as [m|r m|r m|r err|r|].
  - apply effect_of_submit.
  - simpl. destruct (has_closure r h) eqn:C; [|apply effect_refl].
    unfold onUpdate, exec, bind. simpl.
    pose proof (effect_of_create (AgentUpdate r m) r m loading h eq_refl C) as E.
    unfold exec in E. now destruct (updateMessage r m loading h).
  - simpl. destruct (has_closure r h) eqn:C; [|apply effect_refl].
    unfold onSuccess, exec, bind. simpl.
    pose proof (effect_of_create (AgentSuccess r m) r m success h eq_refl C) as E.
    unfold exec in E. now destruct (updateMessage r m success h).
  - simpl. destruct (has_closure r h); [apply effect_of_error | apply effect_refl].
  - simpl. destruct (has_closure r h); [apply effect_of_resume | apply effect_refl].
  - simpl. apply Quiet; try reflexivity. now right.
Qed.

Lemma exec_onUpdate (r : nat) (m : SimpleType) (h : Hook) :
  exec (onUpdate r m) h = exec (updateMessage r m loading) h.
Proof.
  unfold onUpdate, exec, bind. now destruct (updateMessage r m loading h).
Qed.

Lemma exec_onSuccess (r : nat) (m : SimpleType) (h : Hook) :
  exec (onSuccess r m) h = exec (updateMessage r m success) h.
Proof.
  unfold onSuccess, exec, bind. now destruct (updateMessage r m success h).
Qed.

(* ================================================================== *)
(** ** Identifier invariant *)

Lemma in_ids (l : list MessageInfo) (i : MsgId) :
  In i (map id l) <-> exists info, In info l /\ id info = i.
Proof.
  rewrite in_map_iff. split; intros [info [A B]]; exists info; auto.
Qed.

Lemma nodup_ids_filter (keep : MessageInfo -> bool) (l : list MessageInfo) :
  NoDup (map id l) -> NoDup (map id (filter keep l)).
Proof.
  induction l as [|x rest IH]; simpl; intro N; [constructor|].
  inversion N as [|? ? N1 N2]; subst.
  destruct (keep x); simpl; [|auto].
  constructor; [|auto].
  intro I. apply N1. apply in_ids in I as [info [I E]].
  apply filter_In in I as [I _]. apply in_ids. now exists info.
Qed.

Lemma nodup_ids_same (l : list MessageInfo) (a b : MessageInfo) :
  NoDup (map id l) -> In a l -> In b l -> id a = id b -> a = b.
Proof.
  induction l as [|x rest IH]; simpl; intros N A B E; [contradiction|].
  inversion N as [|? ? N1 N2]; subst.
  destruct A as [->|A], B as [->|B]; auto.
  - exfalso. apply N1. apply in_ids. exists b. auto.
  - exfalso. apply N1. apply in_ids. exists a. auto.
Qed.

Lemma ids_overwrite (i : MsgId) (m : SimpleType) (st : MessageStatus) (l : list MessageInfo) :
  map id (map (fun info => if id_eqb (id info) i then mkInfo (id info) m st else info) l)
  = map id l.
Proof.
  rewrite map_map. apply map_ext. intro info. now destruct (id_eqb (id info) i).
Qed.

Lemma store_ok_step (e : Event) (h h' : Hook) :
  store_ok h -> Effect e h h' -> store_ok h'.
Proof.
  intros [N F] [S C L R | keep news S C N' G L R U | r m st keep U S C L1 L2 R
               | r m st i U L S C L' R]; unfold store_ok, fresh_ids in *.
  - rewrite S, C. auto.
  - rewrite S. split.
    + rewrite map_app. apply NoDup_app; [now apply nodup_ids_filter | assumption |].
      intros a A B. apply in_ids in A as [x [A Ex]], B as [y [B Ey]].
      apply filter_In in A as [A _]. destruct (G y B) as [k [K Kr]].
      specialize (F x k A). rewrite Ex, <- Ey in F. specialize (F K). lia.
    + intros info k I E. apply in_app_or in I as [I|I].
      * apply filter_In in I as [I _]. specialize (F info k I E). lia.
      * destruct (G info I) as [k' [K Kr]]. rewrite K in E. apply msg_id_inj in E. lia.
  - rewrite S, C. split.
    + rewrite map_app. apply NoDup_app; [now apply nodup_ids_filter | |].
      * repeat constructor. intros [].
      * intros a A [B|[]]. apply in_ids in A as [x [A Ex]].
        apply filter_In in A as [A _]. simpl in B. specialize (F x (idRef h) A).
        rewrite Ex, <- B in F. specialize (F eq_refl). lia.
    + intros info k I E. apply in_app_or in I as [I|[<-|[]]].
      * apply filter_In in I as [I _]. specialize (F info k I E). lia.
      * simpl in E. apply msg_id_inj in E. lia.
  - rewrite S, C. split.
    + now rewrite ids_overwrite.
    + intros info k I E. apply in_map_iff in I as [x [X I]].
      apply (F x k I). rewrite <- E, <- X. now destruct (id_eqb (id x) i).
Qed.

Lemma counter_step (e : Event) (h h' : Hook) : Effect e h h' -> (idRef h <= idRef h')%N.
Proof. intros [S C L R | ? ? S C N' G L R U | ? ? ? ? U S C L1 L2 R | ? ? ? ? U L S C L' R]; lia. Qed.

Lemma rendered_step (e : Event) (h h' : Hook) :
  NoDup (map id (store h)) -> NoDup (map id (rendered h)) ->
  Effect e h h' -> NoDup (map id (rendered h')).
Proof.
  intros N N' [S C L [R|R] | ? ? S C N'' G L R U | ? ? ? ? U S C L1 L2 R | ? ? ? ? U L S C L' R];
    rewrite R; assumption.
Qed.

(** An id that is not in the store and that the counter has passed (or
    that is not a generated id at all) does not come back. *)
Lemma gone_stays_gone (e : Event) (h h' : Hook) (i : MsgId) :
  (forall k, i = msg_id k -> (k < idRef h)%N) ->
  ~ In i (map id (store h)) ->
  Effect e h h' ->
  ~ In i (map id (store h')).
Proof.
  intros K A [S C L R | keep news S C N' G L R U | r m st keep U S C L1 L2 R
              | r m st j U L S C L' R]; rewrite S.
  - assumption.
  - rewrite map_app, in_app_iff. intros [I|I].
    + apply A. apply in_ids in I as [x [I E]]. apply filter_In in I as [I _].
      apply in_ids. now exists x.
    + apply in_ids in I as [x [I E]]. destruct (G x I) as [k [E' Kr]].
      specialize (K k). rewrite <- E, E' in K. specialize (K eq_refl). lia.
  - rewrite map_app, in_app_iff. intros [I|[I|[]]].
    + apply A. apply in_ids in I as [x [I E]]. apply filter_In in I as [I _].
      apply in_ids. now exists x.
    + simpl in I. specialize (K (idRef h) (eq_sym I)). lia.
  - now rewrite ids_overwrite.
Qed.

Lemma run_app (config : XChatConfig) (h : Hook) (t1 t2 : list Event) :
  run config h (t1 ++ t2) = run config (run config h t1) t2.
Proof. unfold run. apply fold_left_app. Qed.

Lemma run_snoc (config : XChatConfig) (h : Hook) (t : list Event) (e : Event) :
  run config h (t ++ [e]) = step config (run config h t) e.
Proof. now rewrite run_app. Qed.

Lemma store_ok_run (config : XChatConfig) (h : Hook) (trace : list Event) :
  store_ok h -> store_ok (run config h trace).
Proof.
  revert h. induction trace as [|e rest IH]; intros h O; [assumption|].
  simpl. apply IH. apply (store_ok_step e h); [assumption | apply step_effect].
Qed.

Lemma counter_run (config : XChatConfig) (h : Hook) (trace : list Event) :
  (idRef h <= idRef (run config h trace))%N.
Proof.
  revert h. induction trace as [|e rest IH]; intro h; simpl; [lia|].
  pose proof (counter_step e h _ (step_effect config h e)).
  specialize (IH (step config h e)). lia.
Qed.

Lemma rendered_run (config : XChatConfig) (h : Hook) (trace : list Event) :
  store_ok h -> NoDup (map id (rendered h)) ->
  NoDup (map id (rendered (run config h trace))).
Proof.
  revert h. induction trace as [|e rest IH]; intros h O N; [assumption|].
  simpl. apply IH.
  - apply (store_ok_step e h); [assumption | apply step_effect].
  - apply (rendered_step e h); [apply O | assumption | apply step_effect].
Qed.

Lemma gone_stays_gone_run (config : XChatConfig) (h : Hook) (trace : list Event) (i : MsgId) :
  (forall k, i = msg_id k -> (k < idRef h)%N) ->
  ~ In i (map id (store h)) ->
  ~ In i (map id (store (run config h trace))).
Proof.
  revert h. induction trace as [|e rest IH]; intros h K A; [assumption|].
  simpl. apply IH.
  - intros k E. pose proof (counter_step e h _ (step_effect config h e)).
    specialize (K k E). lia.
  - apply (gone_stays_gone e h); [assumption | assumption | apply step_effect].
Qed.

Lemma store_ok_initial (config : XChatConfig) :
  seed_ok (defaultMessages config) -> store_ok (useXChat config).
Proof.
  intros [N G]. split; [exact N|].
  intros info k I E. exfalso. exact (G info k I E).
Qed.

(* ================================================================== *)
(** ** Seeds *)

Lemma seed_ids_from (l : list DefaultMessageInfo) (start : nat) :
  (forall d, In d l -> d_id d = None) ->
  map id (mapi_from (fun info index =>
                       mkInfo (match d_id info with Some i => i | None => default_id index end)
                              (d_message info)
                              (match d_status info with Some s => s | None => local end))
                    start l)
  = map default_id (seq start (List.length l)).
Proof.
  revert start. induction l as [|d rest IH]; intros start D; [reflexivity|].
  simpl. rewrite (D d (or_introl eq_refl)), IH; [reflexivity|].
  intros x I. apply D. now right.
Qed.

(** Defaults that supply no id of their own make a good seed. *)
Lemma index_ids_seed_ok (defaults : list DefaultMessageInfo) :
  (forall d, In d defaults -> d_id d = None) -> seed_ok (Some defaults).
Proof.
  intro D. unfold seed_ok, seed, mapi. split.
  - rewrite (seed_ids_from defaults 0 D).
    apply Injective_map_NoDup; [|apply seq_NoDup].
    intros a b. apply default_id_inj.
  - intros info k I E.
    assert (J : In (id info) (map default_id (seq 0 (List.length defaults)))).
    { rewrite <- (seed_ids_from defaults 0 D). apply in_ids. now exists info. }
    apply in_map_iff in J as [n [J _]]. rewrite E in J.
    exact (default_id_not_generated n k J).
Qed.

Lemma no_defaults_seed_ok : seed_ok None.
Proof.
  split; [constructor | intros info k []].
Qed.

(* ================================================================== *)
(** ** Uniqueness of ids *)

(** C2 (as stated) fails: a default message may bring its own id, and the
    hook takes it as it is. Seeded with a record whose id is [msg_0], the
    first submission stores a second record with the id [msg_0]. *)
Lemma seeded_id_collides :
  let config :=
    mkConfig (Some (mkAgent "agent")) (Some [mkDefault (SString "hi") (Some (IdStr "msg_0")) None])
             None None None in
  map id (store (run config (useXChat config) [Submit (SString "q")]))
  = [IdStr "msg_0"; IdStr "msg_0"]
  /\ ~ NoDup (map id (store (run config (useXChat config) [Submit (SString "q")]))).
Proof.
  split; [reflexivity|].
  intro N. inversion N as [|? ? N1 N2]. apply N1. left. reflexivity.
Qed.

(** C2 (amended). When the seeded records have pairwise distinct ids none
    of which has the generated form [msg_<n>] (so whenever no default
    supplies an id), then after every sequence of submissions, agent
    events, fallback resumptions and notifications: the ids of the
    committed store and of the sequence the observers see are pairwise
    distinct; every generated id in the store is below the counter; the
    counter of the hook instance never decreases and each created record
    takes the counter's value as its id and advances it by one; and an id
    that has left the store never comes back. *)
Theorem generated_ids_stay_unique (config : XChatConfig) (past : list Event) :
  seed_ok (defaultMessages config) ->
  let h := run config (useXChat config) past in
  NoDup (map id (store h)) /\
  NoDup (map id (rendered h)) /\
  fresh_ids h /\
  (forall future, (idRef h <= idRef (run config h future))%N) /\
  (forall m st,
      id (fst (createMessage m st h)) = msg_id (idRef h) /\
      idRef (snd (createMessage m st h)) = (idRef h + 1)%N /\
      ~ In (id (fst (createMessage m st h))) (map id (store h))) /\
  (forall mid future i,
      In i (map id (store h)) ->
      ~ In i (map id (store (run config h mid))) ->
      ~ In i (map id (store (run config h (mid ++ future))))).
Proof.
  intros G h.
  assert (O : store_ok h) by (apply store_ok_run, store_ok_initial, G).
  split; [apply O|]. split.
  { apply rendered_run; [apply store_ok_initial, G | apply G]. }
  split; [apply O|]. split; [intro future; apply counter_run|]. split.
  - intros m st. simpl. repeat split.
    intro I. apply in_ids in I as [info [I E]].
    destruct O as [_ F]. specialize (F info (idRef h) I E). lia.
  - intros mid future i I A. rewrite run_app.
    apply gone_stays_gone_run; [|exact A].
    intros k E. apply in_ids in I as [info [I E']].
    destruct O as [_ F]. specialize (F info k I). rewrite E', E in F. specialize (F eq_refl).
    pose proof (counter_run config h mid). lia.
Qed.

Lemma generated_ids_stay_unique_witness :
  let config :=
    mkConfig (Some (mkAgent "agent")) (Some [mkDefault (SString "hi") None None])
             None (Some (Static (SString "..."))) None in
  seed_ok (defaultMessages config) /\
  NoDup (map id (store (run config (useXChat config)
                          [Submit (SString "q"); AgentUpdate 0 (SString "a");
                           Submit (SString "r"); AgentSuccess 0 (SString "ab");
                           AgentError 1 "down"%string]))).
Proof.
  assert (G : seed_ok (Some [mkDefault (SString "hi") None None])).
  { apply index_ids_seed_ok. intros d [<-|[]]. reflexivity. }
  split; [exact G|].
  apply (generated_ids_stay_unique
           (mkConfig (Some (mkAgent "agent")) (Some [mkDefault (SString "hi") None None])
                     None (Some (Static (SString "..."))) None)
           [Submit (SString "q"); AgentUpdate 0 (SString "a");
            Submit (SString "r"); AgentSuccess 0 (SString "ab");
            AgentError 1 "down"%string] G).
Defined.

(* ================================================================== *)
(** ** Status changes under the agent contract *)

Lemma MsgId_eq_dec (a b : MsgId) : {a = b} + {a <> b}.
Proof. decide equality; [apply Z.eq_dec | apply string_dec]. Qed.

Lemma one_directional_refl (s : MessageStatus) : one_directional s s = true.
Proof. now destruct s. Qed.

Lemma one_directional_trans (a b c : MessageStatus) :
  one_directional a b = true -> one_directional b c = true -> one_directional a c = true.
Proof. destruct a, b, c; simpl; auto. Qed.

Lemma terminated_snoc (r : nat) (past : list Event) (e : Event) :
  terminated r (past ++ [e]) = terminated r past || terminal_for r e.
Proof. unfold terminated. rewrite existsb_app. simpl. now rewrite orb_false_r. Qed.

Lemma terminated_snoc_false (r : nat) (past : list Event) (e : Event) :
  terminated r (past ++ [e]) = false ->
  terminated r past = false /\ terminal_for r e = false.
Proof. rewrite terminated_snoc. apply orb_false_iff. Qed.

Lemma update_event_permitted (past : list Event) (e : Event) (r : nat) (m : SimpleType)
    (st : MessageStatus) :
  update_event e = Some (r, m, st) ->
  permitted past e = true ->
  terminated r past = false /\
  (st = loading \/ st = success) /\
  (st = success -> terminal_for r e = true).
Proof.
  destruct e; simpl; intros U P; try discriminate; injection U as <- <- <-;
    apply negb_true_iff in P; (split; [exact P|]); split; auto; try discriminate.
  intros _. apply Nat.eqb_refl.
Qed.

Lemma contract_from_app (past t1 t2 : list Event) :
  contract_from past (t1 ++ t2) = contract_from past t1 && contract_from (past ++ t1) t2.
Proof.
  revert past. induction t1 as [|e rest IH]; intro past; simpl.
  - now rewrite app_nil_r.
  - rewrite IH, <- app_assoc, andb_assoc. reflexivity.
Qed.

Lemma agent_contract_snoc (trace : list Event) (e : Event) :
  agent_contract (trace ++ [e]) = true ->
  agent_contract trace = true /\ permitted trace e = true.
Proof.
  unfold agent_contract. rewrite contract_from_app. simpl. rewrite andb_true_r.
  apply andb_true_iff.
Qed.

Lemma live_ok_step (past : list Event) (e : Event) (h h' : Hook) :
  live_ok past h -> permitted past e = true -> Effect e h h' -> live_ok (past ++ [e]) h'.
Proof.
  intros (O & J2 & J3 & J4) P E.
  assert (O' : store_ok h') by exact (store_ok_step e h h' O E).
  split; [exact O'|].
  destruct O as [N F].
  destruct E as [S C L R | keep news S C N' G L R U | r m st keep U S C L1 L2 R
                 | r m st i U L S C L' R].
  - (* nothing happens to the store *)
    split; [|split].
    + intros r i. rewrite L, C. apply J2.
    + intros r r' i. rewrite !L. apply J3.
    + intros r i info T. apply terminated_snoc_false in T as [T _].
      rewrite L, S. now apply J4.
  - (* records dropped, fresh records appended *)
    split; [|split].
    + intros r i. rewrite L. intro A. destruct (J2 r i A) as [k [K1 K2]].
      exists k. split; [assumption | lia].
    + intros r r' i. rewrite !L. apply J3.
    + intros r i info T. apply terminated_snoc_false in T as [T _].
      rewrite L, S. intros A I E. apply in_app_or in I as [I|I].
      * apply filter_In in I as [I _]. now apply (J4 r i).
      * exfalso. destruct (G info I) as [k [K1 K2]].
        destruct (J2 r i A) as [k' [K3 K4]].
        rewrite K1, K3 in E. apply msg_id_inj in E. lia.
  - (* a live reply is created *)
    split; [|split].
    + intros r' i. rewrite C. destruct (Nat.eq_dec r' r) as [->|D].
      * rewrite L1. intro A. injection A as <-. exists (idRef h). split; [reflexivity | lia].
      * rewrite (L2 r' D). intro A. destruct (J2 r' i A) as [k [K1 K2]].
        exists k. split; [assumption | lia].
    + intros r1 r2 i.
      destruct (Nat.eq_dec r1 r) as [->|D1], (Nat.eq_dec r2 r) as [->|D2]; auto.
      * rewrite L1, (L2 r2 D2). intros A B. injection A as <-.
        destruct (J2 r2 _ B) as [k [K1 K2]]. apply msg_id_inj in K1. lia.
      * rewrite L1, (L2 r1 D1). intros B A. injection A as <-.
        destruct (J2 r1 _ B) as [k [K1 K2]]. apply msg_id_inj in K1. lia.
      * rewrite (L2 r1 D1), (L2 r2 D2). apply J3.
    + intros r' i info T. apply terminated_snoc_false in T as [T T'].
      destruct (update_event_permitted past e r m st U P) as (_ & St & Tm).
      rewrite S. destruct (Nat.eq_dec r' r) as [->|D].
      * rewrite L1. intros A I E. injection A as <-.
        apply in_app_or in I as [I|[<-|[]]].
        -- exfalso. apply filter_In in I as [I _]. specialize (F info (idRef h) I E). lia.
        -- simpl. destruct St as [->| ->]; [reflexivity|].
           rewrite (Tm eq_refl) in T'. discriminate.
      * rewrite (L2 r' D). intros A I E. apply in_app_or in I as [I|[<-|[]]].
        -- apply filter_In in I as [I _]. now apply (J4 r' i).
        -- exfalso. simpl in E. destruct (J2 r' i A) as [k [K1 K2]].
           rewrite K1 in E. apply msg_id_inj in E. lia.
  - (* a live reply is overwritten *)
    split; [|split].
    + intros r' j. rewrite L', C. apply J2.
    + intros r1 r2 j. rewrite !L'. apply J3.
    + intros r' j info T. apply terminated_snoc_false in T as [T T'].
      destruct (update_event_permitted past e r m st U P) as (_ & St & Tm).
      rewrite L', S. intros A I E. apply in_map_iff in I as [x [X I]].
      destruct (id_eqb (id x) i) eqn:Q.
      * apply id_eqb_eq in Q. subst info. simpl in *.
        assert (R' : r' = r) by (apply (J3 r' r i); congruence). subst r'.
        destruct St as [->| ->]; [reflexivity|].
        rewrite (Tm eq_refl) in T'. discriminate.
      * subst info. now apply (J4 r' j).
Qed.

Lemma live_ok_initial (config : XChatConfig) :
  seed_ok (defaultMessages config) -> live_ok [] (useXChat config).
Proof.
  intro G. split; [now apply store_ok_initial|].
  unfold liveId, closure_of. simpl.
  split; [|split]; intros [|r]; simpl; discriminate.
Qed.

Lemma live_ok_run (config : XChatConfig) (trace : list Event) :
  seed_ok (defaultMessages config) ->
  agent_contract trace = true ->
  live_ok trace (run config (useXChat config) trace).
Proof.
  intro G. induction trace as [|e trace IH] using rev_ind; intro A.
  - now apply live_ok_initial.
  - apply agent_contract_snoc in A as [A P]. rewrite run_snoc.
    apply (live_ok_step trace e (run config (useXChat config) trace));
      [now apply IH | exact P | apply step_effect].
Qed.

(** One permitted event changes the status of a record only from
    [loading], to [success]. *)
Lemma one_step_one_directional (past : list Event) (e : Event) (h h' : Hook)
    (a b : MessageInfo) :
  live_ok past h -> permitted past e = true -> Effect e h h' ->
  In a (store h) -> In b (store h') -> id a = id b ->
  one_directional (status a) (status b) = true.
Proof.
  intros ([N F] & J2 & J3 & J4) P E A B I.
  destruct E as [S C L R | keep news S C N' G L R U | r m st keep U S C L1 L2 R
                 | r m st i U L S C L' R]; rewrite S in B.
  - rewrite (nodup_ids_same _ a b N A B I). apply one_directional_refl.
  - apply in_app_or in B as [B|B].
    + apply filter_In in B as [B _].
      rewrite (nodup_ids_same _ a b N A B I). apply one_directional_refl.
    + exfalso. destruct (G b B) as [k [K1 K2]].
      specialize (F a k A). rewrite I in F. specialize (F K1). lia.
  - apply in_app_or in B as [B|[<-|[]]].
    + apply filter_In in B as [B _].
      rewrite (nodup_ids_same _ a b N A B I). apply one_directional_refl.
    + exfalso. specialize (F a (idRef h) A I). lia.
  - apply in_map_iff in B as [x [X B]].
    destruct (update_event_permitted past e r m st U P) as (T & St & _).
    destruct (id_eqb (id x) i) eqn:Q.
    + apply id_eqb_eq in Q. subst b. simpl in I.
      rewrite (J4 r i a T L A (eq_trans I Q)). simpl.
      destruct St as [->| ->]; reflexivity.
    + subst b. rewrite (nodup_ids_same _ a x N A B I). apply one_directional_refl.
Qed.

(** C8 (as stated) fails: seeded with a history that brings its own ids
    [msg_0] and [msg_1] (the second record being [success]), a submission
    and two [onUpdate] events, which obey the agent contract, give the
    live reply the id [msg_1] again, and the second [onUpdate] rewrites
    the seeded [success] record into a [loading] one. *)
Lemma seeded_success_record_reverts :
  let config :=
    mkConfig (Some (mkAgent "agent"))
             (Some [mkDefault (SString "hello") (Some (IdStr "msg_0")) None;
                    mkDefault (SString "hi") (Some (IdStr "msg_1")) (Some success)])
             None None None in
  let past := [Submit (SString "q"); AgentUpdate 0 (SString "a")] in
  let future := [AgentUpdate 0 (SString "ab")] in
  agent_contract (past ++ future) = true /\
  nth_error (store (run config (useXChat config) past)) 1
  = Some (mkInfo (IdStr "msg_1") (SString "hi") success) /\
  nth_error (store (run config (useXChat config) (past ++ future))) 1
  = Some (mkInfo (IdStr "msg_1") (SString "ab") loading).
Proof. repeat split. Qed.

(** C8 (amended). Under the agent contract, from a seed whose ids are
    distinct and not of the generated form: whenever a record of an
    earlier snapshot and a record of a later snapshot carry the same id, a
    [local] record is still [local], a [success] record still [success],
    an [error] record still [error], and a [loading] record is [loading],
    [success] or [error]. *)
Theorem status_history_one_directional (config : XChatConfig) (past future : list Event)
    (a b : MessageInfo) :
  seed_ok (defaultMessages config) ->
  agent_contract (past ++ future) = true ->
  In a (store (run config (useXChat config) past)) ->
  In b (store (run config (useXChat config) (past ++ future))) ->
  id a = id b ->
  one_directional (status a) (status b) = true /\
  (status a = local -> status b = local) /\
  (status a = success -> status b = success) /\
  (status a = error -> status b = error) /\
  (status a = loading -> status b = loading \/ status b = success \/ status b = error).
Proof.
  intros G C A B I.
  assert (D : one_directional (status a) (status b) = true).
  { revert b C B I. induction future as [|e future IH] using rev_ind; intros b C B I.
    - rewrite app_nil_r in *.
      pose proof (live_ok_run config past G C) as [[N _] _].
      rewrite (nodup_ids_same _ a b N A B I). apply one_directional_refl.
    - rewrite app_assoc in C, B. apply agent_contract_snoc in C as [C P].
      rewrite run_snoc in B.
      pose proof (live_ok_run config (past ++ future) G C) as J.
      set (h1 := run config (useXChat config) (past ++ future)) in *.
      destruct (in_dec MsgId_eq_dec (id a) (map id (store h1))) as [X|X].
      + apply in_ids in X as [x [X E]].
        apply (one_directional_trans _ (status x)).
        * apply IH; auto.
        * apply (one_step_one_directional (past ++ future) e h1 (step config h1 e) x b);
            auto using step_effect. congruence.
      + exfalso.
        apply (gone_stays_gone e h1 (step config h1 e) (id a)); auto using step_effect.
        * intros k E.
          assert (O : store_ok (run config (useXChat config) past))
            by apply store_ok_run, store_ok_initial, G.
          destruct O as [_ F]. specialize (F a k A E).
          unfold h1. rewrite run_app.
          pose proof (counter_run config (run config (useXChat config) past) future). lia.
        * apply in_ids. exists b. auto. }
  split; [exact D|].
  destruct (status a), (status b); simpl in D; try discriminate;
    repeat split; intros; auto; discriminate.
Qed.

Lemma status_history_one_directional_witness :
  let config :=
    mkConfig (Some (mkAgent "agent")) None None (Some (Static (SString "..."))) None in
  let past := [Submit (SString "q"); AgentUpdate 0 (SString "a")] in
  let future := [AgentUpdate 0 (SString "ab"); AgentSuccess 0 (SString "abc")] in
  let a := mkInfo (IdStr "msg_2") (SString "a") loading in
  let b := mkInfo (IdStr "msg_2") (SString "abc") success in
  (seed_ok (defaultMessages config) /\
   agent_contract (past ++ future) = true /\
   In a (store (run config (useXChat config) past)) /\
   In b (store (run config (useXChat config) (past ++ future)))) /\
  one_directional (status a) (status b) = true.
Proof.
  assert (I1 : In (mkInfo (IdStr "msg_2") (SString "a") loading)
                  (store (run (mkConfig (Some (mkAgent "agent")) None None
                                        (Some (Static (SString "..."))) None)
                              (useXChat (mkConfig (Some (mkAgent "agent")) None None
                                                   (Some (Static (SString "..."))) None))
                              [Submit (SString "q"); AgentUpdate 0 (SString "a")]))).
  { right. left. reflexivity. }
  assert (I2 : In (mkInfo (IdStr "msg_2") (SString "abc") success)
                  (store (run (mkConfig (Some (mkAgent "agent")) None None
                                        (Some (Static (SString "..."))) None)
                              (useXChat (mkConfig (Some (mkAgent "agent")) None None
                                                   (Some (Static (SString "..."))) None))
                              ([Submit (SString "q"); AgentUpdate 0 (SString "a")] ++
                               [AgentUpdate 0 (SString "ab"); AgentSuccess 0 (SString "abc")])))).
  { right. left. reflexivity. }
  split.
  - repeat split; [constructor | intros info k [] | exact I1 | exact I2].
  - apply (status_history_one_directional
             (mkConfig (Some (mkAgent "agent")) None None (Some (Static (SString "..."))) None)
             [Submit (SString "q"); AgentUpdate 0 (SString "a")]
             [AgentUpdate 0 (SString "ab"); AgentSuccess 0 (SString "abc")]
             (mkInfo (IdStr "msg_2") (SString "a") loading)
             (mkInfo (IdStr "msg_2") (SString "abc") success)
             no_defaults_seed_ok eq_refl I1 I2 eq_refl).
Defined.

(* ================================================================== *)
(** ** One activation, from submission to its terminal event *)

Lemma id_is_msg (a b : N) : id_is (msg_id a) (Some (msg_id b)) = N.eqb a b.
Proof.
  simpl. destruct (N.eqb_spec a b) as [->|D].
  - apply String.eqb_refl.
  - apply String.eqb_neq. intro E. apply D. apply msg_id_inj. unfold msg_id. now rewrite E.
Qed.

Arguments id_is : simpl never.
Arguments msg_id : simpl never.

Lemma fresh_not_is (h : Hook) (info : MessageInfo) (k : N) :
  fresh_ids h -> In info (store h) -> (idRef h <= k)%N ->
  id_is (id info) (Some (msg_id k)) = false.
Proof.
  intros F I L. apply id_is_false. intro E. injection E as E.
  specialize (F info k I (eq_sym E)). lia.
Qed.

Lemma filter_untouched {A : Type} (keep : A -> bool) (l : list A) :
  (forall x, In x l -> keep x = true) -> filter keep l = l.
Proof.
  induction l as [|x rest IH]; simpl; intro K; [reflexivity|].
  rewrite (K x (or_introl eq_refl)), IH; [reflexivity|]. intros y I. apply K. now right.
Qed.

Lemma map_untouched {A : Type} (f : A -> A) (l : list A) :
  (forall x, In x l -> f x = x) -> map f l = l.
Proof.
  induction l as [|x rest IH]; simpl; intro K; [reflexivity|].
  rewrite (K x (or_introl eq_refl)), IH; [reflexivity|]. intros y I. apply K. now right.
Qed.

Lemma find_no_live (l : list MessageInfo) : find (fun info => id_is (id info) None) l = None.
Proof. induction l as [|x rest IH]; simpl; auto. Qed.

Lemma activation_closure (h0 h : Hook) (m : SimpleType) (ph : Phase) :
  activation h0 m ph h ->
  has_closure (List.length (closures h0)) h = true /\
  pendingId (List.length (closures h0)) h = pend_of (idRef h0) ph /\
  liveId (List.length (closures h0)) h = live_of (idRef h0) ph.
Proof.
  intros (_ & _ & C). unfold has_closure, pendingId, liveId, closure_of. rewrite C.
  rewrite nth_error_app2, Nat.sub_diag by lia. simpl.
  rewrite length_app. simpl. split; [apply Nat.ltb_lt; lia | auto].
Qed.

Lemma activation_submit (config : XChatConfig) (a : XAgent) (m : SimpleType) (h0 : Hook) :
  agent config = Some a ->
  activation h0 m (Waiting (placeholder_of config m h0)) (step config h0 (Submit m)).
Proof.
  intro A. unfold placeholder_of.
  destruct (requestPlaceholder config) as [p|] eqn:P.
  - destruct (truthy_or_fn p) eqn:T.
    + rewrite (submit_placeholder config a p m h0 A P T).
      unfold activation, store, commit. simpl.
      rewrite <- app_assoc. simpl. repeat split. lia.
    + rewrite (submit_plain config a m h0 A) by now rewrite P.
      unfold activation, store, commit. simpl. auto.
  - rewrite (submit_plain config a m h0 A) by now rewrite P.
    unfold activation, store, commit. simpl. auto.
Qed.

(** The records of [h0] and the [local] record are none of the
    activation's placeholder or live reply. *)
Lemma not_own_record (h0 : Hook) (k : N) (info : MessageInfo) :
  fresh_ids h0 -> (idRef h0 < k)%N ->
  In info (store h0) \/ id info = msg_id (idRef h0) ->
  id_is (id info) (Some (msg_id k)) = false.
Proof.
  intros F L [I| ->].
  - apply (fresh_not_is h0); [assumption | assumption | lia].
  - rewrite id_is_msg. apply N.eqb_neq. lia.
Qed.

Lemma activation_update (h0 h : Hook) (m : SimpleType) (ph : Phase) (m' : SimpleType)
    (st : MessageStatus) :
  fresh_ids h0 ->
  activation h0 m ph h ->
  activation h0 m (next_phase ph m' st) (exec (updateMessage (List.length (closures h0)) m' st) h).
Proof.
  intros F Act. destruct (activation_closure _ _ _ _ Act) as (HC & Pe & Li).
  destruct Act as (S & C & Cl).
  set (r := List.length (closures h0)) in *.
  destruct ph as [ph | x st0 b].
  - (* first event: create the live reply, drop the placeholder *)
    assert (Fn : find (fun info => id_is (id info) (liveId r h)) (store h) = None)
      by (rewrite Li; apply find_no_live).
    rewrite (updateMessage_create _ _ _ _ Fn).
    unfold activation, store, commit. simpl. fold (store h).
    rewrite Pe, S, C, Cl. unfold r. rewrite update_nth_last. unfold set_live. simpl.
    destruct ph as [x|]; simpl.
    + rewrite filter_app. simpl.
      rewrite !id_is_msg, N.eqb_refl.
      replace (N.eqb (idRef h0) (idRef h0 + 1)) with false
        by (symmetry; apply N.eqb_neq; lia). simpl.
      rewrite filter_untouched.
      * rewrite <- app_assoc. simpl.
        replace (idRef h0 + 1 + 1)%N with (idRef h0 + 2)%N by lia.
        repeat split; (reflexivity || lia).
      * intros info I. apply negb_true_iff.
        apply (not_own_record h0); [assumption | lia | now left].
    + rewrite filter_untouched by reflexivity.
      rewrite <- app_assoc. simpl. rewrite N.add_0_r.
      repeat split; (reflexivity || lia).
  - (* later event: overwrite the live reply *)
    destruct (find (fun info => id_is (id info) (liveId r h)) (store h)) as [found|] eqn:Fd.
    + rewrite (updateMessage_overwrite _ _ _ _ _ Fd).
      unfold activation, store, commit. simpl. fold (store h).
      rewrite S, C, Cl. simpl. repeat split.
      rewrite map_app. simpl. unfold overwrite_live. rewrite Li. simpl live_of.
      rewrite map_untouched.
      * simpl. rewrite !id_is_msg, N.eqb_refl.
        replace (N.eqb (idRef h0) (idRef h0 + 1 + bool_N b)) with false
          by (symmetry; apply N.eqb_neq; destruct b; simpl; lia).
        reflexivity.
      * intros info I. rewrite (not_own_record h0); auto. destruct b; simpl; lia.
    + exfalso.
      assert (Q : id_is (msg_id (idRef h0 + 1 + bool_N b)) (liveId r h) = false).
      { apply (find_none _ _ Fd (mkInfo (msg_id (idRef h0 + 1 + bool_N b)) x st0)).
        rewrite S. apply in_or_app. right. right. left. reflexivity. }
      rewrite Li in Q. simpl in Q. rewrite id_is_msg, N.eqb_refl in Q. discriminate.
Qed.

Lemma activation_kept (h0 h : Hook) (m : SimpleType) (ph : Phase) :
  fresh_ids h0 ->
  activation h0 m ph h ->
  filter (not_of_request (List.length (closures h0)) h) (store h)
  = store h0 ++ [mkInfo (msg_id (idRef h0)) m local].
Proof.
  intros F Act. destruct (activation_closure _ _ _ _ Act) as (HC & Pe & Li).
  destruct Act as (S & C & Cl).
  unfold not_of_request. rewrite Pe, Li, S. rewrite filter_app.
  rewrite filter_untouched.
  - f_equal. destruct ph as [[x|]|x st b]; simpl.
    + rewrite !id_is_msg, N.eqb_refl.
      replace (N.eqb (idRef h0) (idRef h0 + 1)) with false
        by (symmetry; apply N.eqb_neq; lia).
      reflexivity.
    + reflexivity.
    + destruct b; simpl;
        rewrite ?id_is_msg, ?N.eqb_refl, ?andb_false_r;
        repeat (match goal with
                | |- context [N.eqb ?a ?b] =>
                    replace (N.eqb a b) with false by (symmetry; apply N.eqb_neq; lia)
                end); reflexivity.
  - intros info I. apply andb_true_iff. split; apply negb_true_iff.
    + destruct ph as [[x|]|x st []]; simpl; auto;
        apply (not_own_record h0); auto; lia.
    + destruct ph as [[x|]|x st b]; simpl; auto.
      apply (not_own_record h0); auto. destruct b; simpl; lia.
Qed.

Lemma activation_agent_update (config : XChatConfig) (h0 h : Hook) (m : SimpleType) (ph : Phase)
    (u : SimpleType) :
  fresh_ids h0 ->
  activation h0 m ph h ->
  activation h0 m (next_phase ph u loading)
             (step config h (AgentUpdate (List.length (closures h0)) u)).
Proof.
  intros F Act. simpl.
  destruct (activation_closure _ _ _ _ Act) as (-> & _).
  rewrite exec_onUpdate. now apply activation_update.
Qed.

Lemma activation_agent_success (config : XChatConfig) (h0 h : Hook) (m : SimpleType) (ph : Phase)
    (u : SimpleType) :
  fresh_ids h0 ->
  activation h0 m ph h ->
  activation h0 m (next_phase ph u success)
             (step config h (AgentSuccess (List.length (closures h0)) u)).
Proof.
  intros F Act. simpl.
  destruct (activation_closure _ _ _ _ Act) as (-> & _).
  rewrite exec_onSuccess. now apply activation_update.
Qed.

Lemma activation_updates (config : XChatConfig) (h0 : Hook) (m : SimpleType)
    (updates : list SimpleType) (ph : Phase) (h : Hook) :
  fresh_ids h0 ->
  activation h0 m ph h ->
  activation h0 m (fold_left (fun p u => next_phase p u loading) updates ph)
             (run config h (map (AgentUpdate (List.length (closures h0))) updates)).
Proof.
  intro F. revert ph h. induction updates as [|u rest IH]; intros ph h Act; [exact Act|].
  change (activation h0 m
            (fold_left (fun p u => next_phase p u loading) rest (next_phase ph u loading))
            (run config (step config h (AgentUpdate (List.length (closures h0)) u))
                 (map (AgentUpdate (List.length (closures h0))) rest))).
  apply IH. now apply activation_agent_update.
Qed.

Lemma find_live_exists (v : option MsgId) (l : list MessageInfo) (x : MessageInfo) :
  In x l -> id_is (id x) v = true ->
  exists found, find (fun info => id_is (id info) v) l = Some found.
Proof.
  intros I E. destruct (find (fun info => id_is (id info) v) l) as [found|] eqn:F.
  - now exists found.
  - rewrite (find_none _ _ F x I) in E. discriminate.
Qed.

(** An update of an activation whose live reply is in the store rewrites
    the records with that id and nothing else. *)
Lemma later_update (r : nat) (m : SimpleType) (st : MessageStatus) (h : Hook) (i : MsgId)
    (x : MessageInfo) :
  liveId r h = Some i -> In x (store h) -> id x = i ->
  store (exec (updateMessage r m st) h) = rewrite_id i m st (store h) /\
  idRef (exec (updateMessage r m st) h) = idRef h /\
  closures (exec (updateMessage r m st) h) = closures h.
Proof.
  intros L I E.
  destruct (find_live_exists (liveId r h) (store h) x I) as [found F].
  { rewrite L. apply id_is_true. now rewrite E. }
  rewrite (updateMessage_overwrite _ _ _ _ _ F). unfold store, commit. simpl.
  repeat split. unfold rewrite_id, overwrite_live. rewrite L. reflexivity.
Qed.

Lemma in_rewrite_id (i : MsgId) (m : SimpleType) (st : MessageStatus) (l : list MessageInfo)
    (x : MessageInfo) :
  In x l -> id x = i -> In (mkInfo i m st) (rewrite_id i m st l).
Proof.
  intros I E. unfold rewrite_id. apply in_map_iff. exists x. split; [|exact I].
  rewrite E, id_eqb_refl. reflexivity.
Qed.

Lemma rewrite_id_only (i : MsgId) (m : SimpleType) (st : MessageStatus) (l : list MessageInfo)
    (y : MessageInfo) :
  In y (rewrite_id i m st l) -> id y = i -> y = mkInfo i m st.
Proof.
  unfold rewrite_id. intros I E. apply in_map_iff in I as [x [X I]].
  destruct (id_eqb (id x) i) eqn:Q.
  - apply id_eqb_eq in Q. now rewrite <- X, Q.
  - apply id_eqb_neq in Q. subst y. contradiction.
Qed.

(** The first event of an activation: the placeholder is dropped and the
    live reply appended. *)
Lemma first_update (h0 h : Hook) (m : SimpleType) (ph : option SimpleType) (u : SimpleType)
    (st : MessageStatus) :
  activation h0 m (Waiting ph) h ->
  let r := List.length (closures h0) in
  let live := msg_id (idRef h0 + used (Waiting ph)) in
  let h' := exec (updateMessage r u st) h in
  store h' = drop_id (pend_of (idRef h0) (Waiting ph)) (store h0)
             ++ [mkInfo (msg_id (idRef h0)) m local; mkInfo live u st] /\
  liveId r h' = Some live.
Proof.
  intros Act r live h'. destruct (activation_closure _ _ _ _ Act) as (HC & Pe & Li).
  destruct Act as (S & C & Cl). fold r in HC, Pe, Li.
  assert (Fn : find (fun info => id_is (id info) (liveId r h)) (store h) = None)
    by (rewrite Li; apply find_no_live).
  unfold h'. rewrite (updateMessage_create _ _ _ _ Fn). split.
  - unfold store at 1, commit. simpl. rewrite Pe, S, C. unfold drop_id, live.
    rewrite filter_app, <- app_assoc. f_equal.
    destruct ph as [x|]; simpl.
    + rewrite !id_is_msg, N.eqb_refl.
      replace (N.eqb (idRef h0) (idRef h0 + 1)) with false
        by (symmetry; apply N.eqb_neq; lia).
      reflexivity.
    + reflexivity.
  - unfold live. rewrite <- C.
    apply (liveId_set_live r _ h); [exact HC | reflexivity].
Qed.

(** C1. With an agent and a configured placeholder, one [onRequest]
    followed by two [onUpdate] events and [onSuccess]: after [onRequest]
    the store is the old content, the [local] record and (when the
    placeholder passes the hook's truthiness test) the placeholder record;
    after the first [onUpdate] the placeholder record is gone and the
    request has exactly one [loading] record, with the first payload;
    after the second [onUpdate] the record with that same id carries the
    second payload and is still [loading]; after [onSuccess] that same id
    is [success] with the final payload. When no old record carries an
    id the counter has yet to issue, the old content is untouched
    throughout. *)
Theorem streaming_reply_keeps_one_record (config : XChatConfig) (a : XAgent)
    (p : ValueOrFn RequestPlaceholderFn) (m u1 u2 fin : SimpleType) (h : Hook) :
  agent config = Some a ->
  requestPlaceholder config = Some p ->
  let r := List.length (closures h) in
  let localMsg := mkInfo (msg_id (idRef h)) m local in
  let placeholder :=
    mkInfo (msg_id (idRef h + 1)) (placeholder_payload p m (store h ++ [localMsg])) loading in
  let pending := if truthy_or_fn p then Some (id placeholder) else None in
  let live := msg_id (idRef h + 1 + bool_N (truthy_or_fn p)) in
  let h1 := step config h (Submit m) in
  let h2 := step config h1 (AgentUpdate r u1) in
  let h3 := step config h2 (AgentUpdate r u2) in
  let h4 := step config h3 (AgentSuccess r fin) in
  store h1 = store h ++ localMsg :: (if truthy_or_fn p then [placeholder] else []) /\
  store h2 = drop_id pending (store h) ++ [localMsg; mkInfo live u1 loading] /\
  (truthy_or_fn p = true -> ~ In (id placeholder) (map id (store h2))) /\
  store h3 = rewrite_id live u2 loading (store h2) /\
  (forall info, In info (store h3) -> id info = live -> info = mkInfo live u2 loading) /\
  In (mkInfo live u2 loading) (store h3) /\
  store h4 = rewrite_id live fin success (store h3) /\
  (forall info, In info (store h4) -> id info = live -> info = mkInfo live fin success) /\
  In (mkInfo live fin success) (store h4) /\
  (fresh_ids h ->
   store h2 = store h ++ [localMsg; mkInfo live u1 loading] /\
   store h3 = store h ++ [localMsg; mkInfo live u2 loading] /\
   store h4 = store h ++ [localMsg; mkInfo live fin success]).
Proof.
  intros A P r localMsg placeholder pending live h1 h2 h3 h4.
  pose proof (activation_submit config a m h A) as A1. fold h1 in A1.
  assert (Ph : placeholder_of config m h
               = if truthy_or_fn p then Some (message placeholder) else None).
  { unfold placeholder_of. now rewrite P. }
  rewrite Ph in A1.
  destruct (activation_closure _ _ _ _ A1) as (C1 & _). fold r in C1.
  assert (E2 : h2 = exec (updateMessage r u1 loading) h1).
  { unfold h2. simpl. rewrite C1. apply exec_onUpdate. }
  destruct (first_update h h1 m _ u1 loading A1) as (S2 & L2).
  fold r in S2, L2. rewrite <- E2 in S2, L2.
  assert (S2' : store h2 = drop_id pending (store h) ++ [localMsg; mkInfo live u1 loading]).
  { rewrite S2. unfold pending, live, localMsg. destruct (truthy_or_fn p); simpl;
      rewrite ?N.add_0_r; replace (idRef h + 1 + 1)%N with (idRef h + 2)%N by lia;
      reflexivity. }
  assert (L2' : liveId r h2 = Some live).
  { rewrite L2. unfold live. destruct (truthy_or_fn p); simpl;
      rewrite ?N.add_0_r; replace (idRef h + 1 + 1)%N with (idRef h + 2)%N by lia;
      reflexivity. }
  assert (C2 : has_closure r h2 = true).
  { rewrite E2. destruct (find (fun info => id_is (id info) (liveId r h1)) (store h1)) eqn:F.
    - now rewrite (updateMessage_overwrite _ _ _ _ _ F).
    - rewrite (updateMessage_create _ _ _ _ F). unfold has_closure in *. simpl.
      now rewrite update_nth_length. }
  assert (I2 : In (mkInfo live u1 loading) (store h2)).
  { rewrite S2'. apply in_or_app. right. right. left. reflexivity. }
  assert (E3 : h3 = exec (updateMessage r u2 loading) h2).
  { unfold h3. simpl. rewrite C2. apply exec_onUpdate. }
  destruct (later_update r u2 loading h2 live _ L2' I2 eq_refl) as (S3 & _ & K3).
  rewrite <- E3 in S3, K3.
  assert (I3 : In (mkInfo live u2 loading) (store h3)).
  { rewrite S3. now apply (in_rewrite_id live u2 loading _ _ I2). }
  assert (C3 : has_closure r h3 = true) by (unfold has_closure in *; now rewrite K3).
  assert (L3 : liveId r h3 = Some live) by now rewrite (liveId_closures r h2 h3 K3).
  assert (E4 : h4 = exec (updateMessage r fin success) h3).
  { unfold h4. simpl. rewrite C3. apply exec_onSuccess. }
  destruct (later_update r fin success h3 live _ L3 I3 eq_refl) as (S4 & _ & _).
  rewrite <- E4 in S4.
  destruct A1 as (S1 & _).
  split; [|split; [|split; [|split; [|split; [|split; [|split; [|split; [|split]]]]]]]].
  - rewrite S1. now destruct (truthy_or_fn p).
  - exact S2'.
  - intro T. rewrite S2', map_app, in_app_iff. unfold pending, live. rewrite T. simpl.
    intros [I|[I|[I|[]]]].
    + apply in_ids in I as [x [I E]]. unfold drop_id in I. apply filter_In in I as [_ I].
      apply negb_true_iff, id_is_false in I. apply I. now rewrite E.
    + apply msg_id_inj in I. lia.
    + apply msg_id_inj in I. lia.
  - exact S3.
  - intros info I E. rewrite S3 in I. now apply (rewrite_id_only live u2 loading _ _ I).
  - exact I3.
  - exact S4.
  - intros info I E. rewrite S4 in I. now apply (rewrite_id_only live fin success _ _ I).
  - rewrite S4. now apply (in_rewrite_id live fin success _ _ I3).
  - intro F.
    assert (B : activation h m
                  (Waiting (if truthy_or_fn p then Some (message placeholder) else None)) h1).
    { rewrite <- Ph. fold h1. apply (activation_submit config a m h A). }
    pose proof (activation_agent_update config h h1 m _ u1 F B) as A2. fold r h2 in A2.
    pose proof (activation_agent_update config h h2 m _ u2 F A2) as A3. fold r h3 in A3.
    pose proof (activation_agent_success config h h3 m _ fin F A3) as A4. fold r h4 in A4.
    destruct A2 as (T2 & _), A3 as (T3 & _), A4 as (T4 & _).
    rewrite T2, T3, T4. unfold live. destruct (truthy_or_fn p); auto.
Qed.

Lemma streaming_reply_keeps_one_record_witness :
  let config :=
    mkConfig (Some (mkAgent "agent")) None None (Some (Static (SString "..."))) None in
  let trace :=
    [Submit (SString "q"); AgentUpdate 0 (SString "a"); AgentUpdate 0 (SString "ab");
     AgentSuccess 0 (SString "abc")] in
  In (mkInfo (IdStr "msg_2") (SString "abc") success) (store (run config (useXChat config) trace)).
Proof.
  destruct (streaming_reply_keeps_one_record
              (mkConfig (Some (mkAgent "agent")) None None (Some (Static (SString "..."))) None)
              (mkAgent "agent") (Static (SString "..."))
              (SString "q") (SString "a") (SString "ab") (SString "abc")
              (useXChat (mkConfig (Some (mkAgent "agent")) None None
                                  (Some (Static (SString "..."))) None))
              eq_refl eq_refl) as (_ & _ & _ & _ & _ & _ & _ & _ & E & _).
  exact E.
Defined.

(* ================================================================== *)
(** ** Failed requests *)

Lemma step_agent_error (config : XChatConfig) (h0 h : Hook) (m : SimpleType) (ph : Phase)
    (err : ErrorObj) :
  activation h0 m ph h ->
  step config h (AgentError (List.length (closures h0)) err)
  = exec (onError config (List.length (closures h0)) err) h.
Proof.
  intro Act. simpl. now destruct (activation_closure _ _ _ _ Act) as (-> & _).
Qed.

(** C3 (as stated) fails: seeded with a history that brings its own ids
    [msg_0] and [msg_1], a submission with a placeholder gives the
    placeholder the id [msg_1] again, and [onError] removes every record
    with that id: the seeded reply is lost from the pre-request content. *)
Lemma failure_removes_seeded_record :
  let config :=
    mkConfig (Some (mkAgent "agent"))
             (Some [mkDefault (SString "hello") (Some (IdStr "msg_0")) None;
                    mkDefault (SString "hi") (Some (IdStr "msg_1")) (Some success)])
             None (Some (Static (SString "..."))) None in
  store (useXChat config)
  = [mkInfo (IdStr "msg_0") (SString "hello") local;
     mkInfo (IdStr "msg_1") (SString "hi") success] /\
  store (run config (useXChat config) [Submit (SString "q"); AgentError 0 "down"%string])
  = [mkInfo (IdStr "msg_0") (SString "hello") local;
     mkInfo (IdStr "msg_0") (SString "q") local].
Proof. split; reflexivity. Qed.

(** C3 (amended). On a store none of whose records carries an id the
    counter has yet to issue, with an agent and no fallback: whatever the placeholder configuration and
    however many [onUpdate] events came first, after [onError] the store
    is exactly the content from before the request followed by the
    [local] record of the submitted message; no [loading] or [error]
    record of the request is left. *)
Theorem failure_without_fallback_leaves_local_only (config : XChatConfig) (a : XAgent)
    (m : SimpleType) (updates : list SimpleType) (err : ErrorObj) (h : Hook) :
  agent config = Some a ->
  requestFallback config = None ->
  fresh_ids h ->
  let r := List.length (closures h) in
  let after :=
    run config h (Submit m :: map (AgentUpdate r) updates ++ [AgentError r err]) in
  store after = store h ++ [mkInfo (msg_id (idRef h)) m local] /\
  (forall info, In info (store after) -> ~ In info (store h) ->
     info = mkInfo (msg_id (idRef h)) m local) /\
  idRef after = idRef (run config h (Submit m :: map (AgentUpdate r) updates)).
Proof.
  intros A Fb F r after. subst after r.
  pose proof (activation_submit config a m h A) as A1.
  pose proof (activation_updates config h m updates _ _ F A1) as A2.
  rewrite app_comm_cons, run_snoc.
  change (run config h (Submit m :: map (AgentUpdate (List.length (closures h))) updates))
    with (run config (step config h (Submit m))
              (map (AgentUpdate (List.length (closures h))) updates)).
  set (before := run config (step config h (Submit m))
                     (map (AgentUpdate (List.length (closures h))) updates)) in *.
  rewrite (step_agent_error config h before m _ err A2).
  rewrite onError_no_fallback by now rewrite Fb.
  rewrite remove_request_records.
  assert (S : store (mkHook (commit (filter (not_of_request (List.length (closures h)) before)
                                            (store before)) before)
                            (idRef before) (closures before) (agentCalls before))
              = store h ++ [mkInfo (msg_id (idRef h)) m local]).
  { unfold store at 1, commit. simpl. exact (activation_kept h _ m _ F A2). }
  split; [exact S|]. split.
  - rewrite S. intros info I N. apply in_app_or in I as [I|[<-|[]]];
      [contradiction | reflexivity].
  - reflexivity.
Qed.

Lemma failure_without_fallback_leaves_local_only_witness :
  let config :=
    mkConfig (Some (mkAgent "agent")) (Some [mkDefault (SString "hi") None None]) None
             (Some (Static (SString "..."))) None in
  fresh_ids (useXChat config) /\
  store (run config (useXChat config)
             [Submit (SString "q"); AgentUpdate 0 (SString "a"); AgentUpdate 0 (SString "ab");
              AgentError 0 "down"%string])
  = [mkInfo (IdStr "default_0") (SString "hi") local;
     mkInfo (IdStr "msg_0") (SString "q") local].
Proof.
  assert (F : fresh_ids (useXChat (mkConfig (Some (mkAgent "agent"))
                                            (Some [mkDefault (SString "hi") None None]) None
                                            (Some (Static (SString "..."))) None))).
  { apply store_ok_initial. simpl. apply index_ids_seed_ok.
    intros d [<-|[]]. reflexivity. }
  split; [exact F|].
  destruct (failure_without_fallback_leaves_local_only
              (mkConfig (Some (mkAgent "agent")) (Some [mkDefault (SString "hi") None None])
                        None (Some (Static (SString "..."))) None)
              (mkAgent "agent") (SString "q") [SString "a"; SString "ab"] "down"%string
              (useXChat (mkConfig (Some (mkAgent "agent"))
                                  (Some [mkDefault (SString "hi") None None]) None
                                  (Some (Static (SString "..."))) None))
              eq_refl eq_refl F) as (E & _).
  exact E.
Defined.

(** C4 (as stated) fails, in two ways. A static fallback payload that is
    falsy (here the number 0) does not pass the hook's test
    [if (requestFallback)]: [onError] removes the placeholder and stores
    no [error] record. And with a truthy fallback, seeded with a history
    that brings its own ids [msg_0] and [msg_1], [onError] removes the
    seeded record [msg_1] along with the placeholder of the same id. *)
Lemma fallback_not_applied_or_not_alone :
  let config :=
    mkConfig (Some (mkAgent "agent")) None None (Some (Static (SString "...")))
             (Some (Static (SNumber 0))) in
  let seeded :=
    mkConfig (Some (mkAgent "agent"))
             (Some [mkDefault (SString "hello") (Some (IdStr "msg_0")) None;
                    mkDefault (SString "hi") (Some (IdStr "msg_1")) (Some success)])
             None (Some (Static (SString "..."))) (Some (Static (SString "sorry"))) in
  store (run config (useXChat config) [Submit (SString "q"); AgentError 0 "down"%string])
  = [mkInfo (IdStr "msg_0") (SString "q") local]
  /\
  store (run seeded (useXChat seeded) [Submit (SString "q"); AgentError 0 "down"%string])
  = [mkInfo (IdStr "msg_0") (SString "hello") local;
     mkInfo (IdStr "msg_0") (SString "q") local;
     mkInfo (IdStr "msg_2") (SString "sorry") error].
Proof. split; reflexivity. Qed.

(** C4 (amended). On a store none of whose records carries an id the
    counter has yet to issue, with an agent and a static fallback payload
    that is truthy:
    after [onError] (whatever the placeholder configuration and however
    many [onUpdate] events came first) the store is the content from
    before the request, the [local] record, and one new [error] record
    with the fallback payload, in the place of the placeholder and the
    live reply; no other record changed. *)
Theorem failure_with_static_fallback (config : XChatConfig) (a : XAgent)
    (v m : SimpleType) (updates : list SimpleType) (err : ErrorObj) (h : Hook) :
  agent config = Some a ->
  requestFallback config = Some (Static v) ->
  truthy v = true ->
  fresh_ids h ->
  let r := List.length (closures h) in
  let before := run config h (Submit m :: map (AgentUpdate r) updates) in
  let after := step config before (AgentError r err) in
  store after
  = store h ++ [mkInfo (msg_id (idRef h)) m local; mkInfo (msg_id (idRef before)) v error] /\
  (idRef h < idRef before)%N /\
  ~ In (msg_id (idRef before)) (map id (store before)).
Proof.
  intros A Fb T F r before after. subst after before r.
  pose proof (activation_submit config a m h A) as A1.
  pose proof (activation_updates config h m updates _ _ F A1) as A2.
  change (run config h (Submit m :: map (AgentUpdate (List.length (closures h))) updates))
    with (run config (step config h (Submit m))
              (map (AgentUpdate (List.length (closures h))) updates)).
  set (before := run config (step config h (Submit m))
                     (map (AgentUpdate (List.length (closures h))) updates)) in *.
  split; [|split].
  - rewrite (step_agent_error config h before m _ err A2).
    rewrite (onError_static config _ err v before Fb T), put_fallback_eq.
    unfold store at 1, commit. simpl.
    rewrite (activation_kept h _ m _ F A2), <- app_assoc. reflexivity.
  - destruct A2 as (_ & -> & _).
    destruct (fold_left _ updates _) as [[x|]|x st []]; simpl; lia.
  - destruct A2 as (S & C & _). rewrite S, C, map_app, in_app_iff. simpl.
    intros [I|[I|I]].
    + apply in_ids in I as [x [I E]]. specialize (F x _ I E).
      destruct (fold_left _ updates _) as [[y|]|y st []]; simpl in F; lia.
    + apply msg_id_inj in I.
      destruct (fold_left _ updates _) as [[y|]|y st []]; simpl in I; lia.
    + destruct (fold_left _ updates _) as [[y|]|y st []]; simpl in I;
        try contradiction; destruct I as [I|[]]; apply msg_id_inj in I; simpl in I; lia.
Qed.

Lemma failure_with_static_fallback_witness :
  let config :=
    mkConfig (Some (mkAgent "agent")) None None (Some (Static (SString "...")))
             (Some (Static (SString "sorry"))) in
  fresh_ids (useXChat config) /\
  store (step config
           (run config (useXChat config) [Submit (SString "q"); AgentUpdate 0 (SString "a")])
           (AgentError 0 "down"%string))
  = [mkInfo (IdStr "msg_0") (SString "q") local;
     mkInfo (IdStr "msg_3") (SString "sorry") error].
Proof.
  assert (F : fresh_ids (useXChat (mkConfig (Some (mkAgent "agent")) None None
                                            (Some (Static (SString "...")))
                                            (Some (Static (SString "sorry")))))).
  { intros info k []. }
  split; [exact F|].
  destruct (failure_with_static_fallback
              (mkConfig (Some (mkAgent "agent")) None None (Some (Static (SString "...")))
                        (Some (Static (SString "sorry"))))
              (mkAgent "agent") (SString "sorry") (SString "q") [SString "a"] "down"%string
              (useXChat (mkConfig (Some (mkAgent "agent")) None None
                                  (Some (Static (SString "...")))
                                  (Some (Static (SString "sorry")))))
              eq_refl eq_refl eq_refl F) as (E & _).
  exact E.
Defined.

(* ================================================================== *)
(** ** Falsy placeholder and fallback values *)

Lemma falsy_values (v : SimpleType) :
  truthy v = false <-> v = SString EmptyString \/ v = SNumber 0 \/ v = SBoolean false.
Proof.
  split.
  - destruct v as [s|n|b| |]; simpl; intro T; try discriminate.
    + left. apply negb_false_iff, String.eqb_eq in T. now subst.
    + right. left. apply negb_false_iff, Z.eqb_eq in T. now subst.
    + right. right. now subst.
  - intros [->|[->| ->]]; reflexivity.
Qed.

(** C10. A [requestPlaceholder] that is the empty string, 0 or [false]
    makes [onRequest] behave exactly as with no placeholder configured:
    only the [local] record is appended. A [requestFallback] that is one
    of these values makes [onError] behave exactly as with no fallback
    configured: the placeholder and live reply are removed and no [error]
    record is appended. *)
Theorem falsy_policy_is_no_policy (v : SimpleType) :
  v = SString EmptyString \/ v = SNumber 0 \/ v = SBoolean false ->
  (forall ag ds ps fb m h,
      onRequest (mkConfig ag ds ps (Some (Static v)) fb) m h
      = onRequest (mkConfig ag ds ps None fb) m h) /\
  (forall a ds ps fb m h,
      store (step (mkConfig (Some a) ds ps (Some (Static v)) fb) h (Submit m))
      = store h ++ [mkInfo (msg_id (idRef h)) m local]) /\
  (forall ag ds ps ph r err h,
      onError (mkConfig ag ds ps ph (Some (Static v))) r err h
      = onError (mkConfig ag ds ps ph None) r err h) /\
  (forall ag ds ps ph r err h,
      store (exec (onError (mkConfig ag ds ps ph (Some (Static v))) r err) h)
      = filter (not_of_request r h) (store h)).
Proof.
  intro V. apply falsy_values in V. repeat split.
  - intros ag ds ps fb m h. unfold onRequest. simpl. destruct ag as [a|]; [|reflexivity].
    unfold exec, bind, new_closure, setMessages, add_request_messages, bind, createMessage.
    simpl. rewrite V. reflexivity.
  - intros a ds ps fb m h.
    rewrite (submit_plain (mkConfig (Some a) ds ps (Some (Static v)) fb) a m h eq_refl);
      [reflexivity | simpl; exact V].
  - intros ag ds ps ph r err h. unfold onError. simpl. rewrite V. reflexivity.
  - intros ag ds ps ph r err h.
    rewrite onError_no_fallback by (simpl; exact V).
    now rewrite remove_request_records.
Qed.

Lemma falsy_policy_is_no_policy_witness :
  (SNumber 0 = SString EmptyString \/ SNumber 0 = SNumber 0 \/ SNumber 0 = SBoolean false) /\
  onRequest (mkConfig (Some (mkAgent "agent")) None None (Some (Static (SNumber 0))) None)
            (SString "q") (useXChat (mkConfig None None None None None))
  = onRequest (mkConfig (Some (mkAgent "agent")) None None None None)
              (SString "q") (useXChat (mkConfig None None None None None)).
Proof.
  split; [right; left; reflexivity|].
  destruct (falsy_policy_is_no_policy (SNumber 0) (or_intror (or_introl eq_refl)))
    as (E & _).
  apply E.
Defined.

(* ================================================================== *)
(** ** Further properties of the request life cycle *)

Lemma pendingId_set_parked (r r' : nat) (v : list SimpleType) (h h' : Hook) :
  closures h' = update_nth r (set_parked v) (closures h) -> pendingId r' h' = pendingId r' h.
Proof.
  unfold pendingId, closure_of. intros ->.
  destruct (Nat.eq_dec r r') as [<-|N].
  - rewrite nth_error_update_nth_same. now destruct (nth_error (closures h) r).
  - now rewrite nth_error_update_nth_other.
Qed.

Lemma pendingId_closures_eq (r : nat) (h h' : Hook) :
  closures h' = closures h -> pendingId r h' = pendingId r h.
Proof. unfold pendingId, closure_of. now intros ->. Qed.

Lemma not_of_request_same (r : nat) (h h' : Hook) :
  pendingId r h' = pendingId r h -> liveId r h' = liveId r h ->
  forall l, filter (not_of_request r h') l = filter (not_of_request r h) l.
Proof.
  intros P L l. apply filter_ext. intro x. unfold not_of_request. now rewrite P, L.
Qed.

Lemma find_all_false {A : Type} (f : A -> bool) (l : list A) :
  (forall x, In x l -> f x = false) -> find f l = None.
Proof.
  induction l as [|x rest IH]; simpl; intro N; [reflexivity|].
  rewrite (N x (or_introl eq_refl)). apply IH. intros y I. apply N. now right.
Qed.

Lemma filter_twice {A : Type} (p q : A -> bool) (l : list A) :
  (forall x, p x = true -> q x = true) -> filter p (filter q l) = filter p l.
Proof.
  intro PQ. induction l as [|x rest IH]; simpl; [reflexivity|].
  destruct (q x) eqn:Q; simpl.
  - now rewrite IH.
  - destruct (p x) eqn:P; [|exact IH]. rewrite (PQ x P) in Q. discriminate.
Qed.

Lemma step_agent_success (config : XChatConfig) (h0 h : Hook) (m : SimpleType) (ph : Phase)
    (fin : SimpleType) :
  activation h0 m ph h ->
  step config h (AgentSuccess (List.length (closures h0)) fin)
  = exec (updateMessage (List.length (closures h0)) fin success) h.
Proof.
  intro Act. simpl. destruct (activation_closure _ _ _ _ Act) as (-> & _).
  apply exec_onSuccess.
Qed.

(** X1. An agent that answers at once: [onRequest] followed by
    [onSuccess] with no [onUpdate] in between leaves, besides the old
    content, the [local] record and one [success] record with the final
    payload; the placeholder, if one was stored, is gone, so no [loading]
    record of the request remains. *)
Theorem immediate_success_leaves_no_loading (config : XChatConfig) (a : XAgent)
    (m fin : SimpleType) (h : Hook) :
  agent config = Some a ->
  let r := List.length (closures h) in
  let pending :=
    match placeholder_of config m h with
    | Some _ => Some (msg_id (idRef h + 1))
    | None => None
    end in
  let live :=
    match placeholder_of config m h with
    | Some _ => msg_id (idRef h + 2)
    | None => msg_id (idRef h + 1)
    end in
  let after := run config h [Submit m; AgentSuccess r fin] in
  store after
  = drop_id pending (store h) ++ [mkInfo (msg_id (idRef h)) m local; mkInfo live fin success] /\
  (fresh_ids h ->
   store after = store h ++ [mkInfo (msg_id (idRef h)) m local; mkInfo live fin success] /\
   forall info, In info (store after) -> ~ In info (store h) -> status info <> loading).
Proof.
  intros A r pending live after. subst after r.
  pose proof (activation_submit config a m h A) as A1.
  change (run config h [Submit m; AgentSuccess (List.length (closures h)) fin])
    with (step config (step config h (Submit m))
               (AgentSuccess (List.length (closures h)) fin)).
  rewrite (step_agent_success config h _ m _ fin A1).
  destruct (first_update h _ m _ fin success A1) as (S & _).
  assert (E : store (exec (updateMessage (List.length (closures h)) fin success)
                          (step config h (Submit m)))
              = drop_id pending (store h)
                ++ [mkInfo (msg_id (idRef h)) m local; mkInfo live fin success]).
  { rewrite S. unfold pending, live. now destruct (placeholder_of config m h). }
  split; [exact E|]. intro F.
  assert (D : drop_id pending (store h) = store h).
  { unfold drop_id. apply filter_untouched. intros info I. apply negb_true_iff.
    unfold pending. destruct (placeholder_of config m h); [|reflexivity].
    apply (fresh_not_is h); [assumption | assumption | lia]. }
  rewrite E, D. split; [reflexivity|].
  intros info I N. apply in_app_or in I as [I|[<-|[<-|[]]]];
    [contradiction | discriminate | discriminate].
Qed.

Lemma immediate_success_leaves_no_loading_witness :
  let config :=
    mkConfig (Some (mkAgent "agent")) None None (Some (Static (SString "..."))) None in
  store (run config (useXChat config) [Submit (SString "q"); AgentSuccess 0 (SString "done")])
  = [mkInfo (IdStr "msg_0") (SString "q") local;
     mkInfo (IdStr "msg_2") (SString "done") success].
Proof.
  destruct (immediate_success_leaves_no_loading
              (mkConfig (Some (mkAgent "agent")) None None (Some (Static (SString "..."))) None)
              (mkAgent "agent") (SString "q") (SString "done")
              (useXChat (mkConfig (Some (mkAgent "agent")) None None
                                  (Some (Static (SString "..."))) None))
              eq_refl) as (E & _).
  exact E.
Defined.

(** X2. What a submission hands out: [agent.request] is called once,
    with the submitted message and, as history, the payloads of the
    [local] and [success] records already stored followed by the submitted
    message itself (the placeholder is not part of it); a placeholder
    function is called with the same history, and its result is the
    payload of the [loading] record appended last. *)
Theorem request_sees_settled_history (config : XChatConfig) (a : XAgent) (m : SimpleType)
    (h : Hook) :
  agent config = Some a ->
  agentCalls (step config h (Submit m))
  = agentCalls h ++ [mkRequestInfo m (getFilteredMessages (store h) ++ [m])] /\
  (forall f, requestPlaceholder config = Some (Computed f) ->
     store (step config h (Submit m))
     = store h ++ [mkInfo (msg_id (idRef h)) m local;
                   mkInfo (msg_id (idRef h + 1))
                          (f m (getFilteredMessages (store h) ++ [m])) loading]).
Proof.
  intro A.
  assert (L : getFilteredMessages (store h ++ [mkInfo (msg_id (idRef h)) m local])
              = getFilteredMessages (store h) ++ [m]).
  { now rewrite getFilteredMessages_app. }
  split.
  - destruct (match requestPlaceholder config with
              | Some p => truthy_or_fn p
              | None => false
              end) eqn:P.
    + destruct (requestPlaceholder config) as [p|] eqn:RP; [|discriminate].
      rewrite (submit_placeholder config a p m h A RP P). simpl.
      rewrite getFilteredMessages_app, L. simpl. now rewrite app_nil_r.
    + rewrite (submit_plain config a m h A P). simpl. now rewrite L.
  - intros f RP. rewrite (submit_placeholder config a (Computed f) m h A RP eq_refl).
    unfold store at 1, commit. simpl. rewrite L, <- app_assoc. reflexivity.
Qed.

Lemma request_sees_settled_history_witness :
  let config :=
    mkConfig (Some (mkAgent "agent"))
             (Some [mkDefault (SString "hi") None None;
                    mkDefault (SString "wait") None (Some loading)])
             None (Some (Static (SString "..."))) None in
  agentCalls (step config (useXChat config) (Submit (SString "q")))
  = [mkRequestInfo (SString "q") [SString "hi"; SString "q"]].
Proof.
  destruct (request_sees_settled_history
              (mkConfig (Some (mkAgent "agent"))
                        (Some [mkDefault (SString "hi") None None;
                               mkDefault (SString "wait") None (Some loading)])
                        None (Some (Static (SString "..."))) None)
              (mkAgent "agent") (SString "q")
              (useXChat (mkConfig (Some (mkAgent "agent"))
                                  (Some [mkDefault (SString "hi") None None;
                                         mkDefault (SString "wait") None (Some loading)])
                                  None (Some (Static (SString "..."))) None))
              eq_refl) as (E & _).
  exact E.
Defined.

Lemma updates_keep_streaming (updates : list SimpleType) (ph : Phase) :
  streaming ph -> streaming (fold_left (fun p u => next_phase p u loading) updates ph).
Proof.
  revert ph. induction updates as [|u rest IH]; intros ph S; [exact S|].
  simpl. apply IH. destruct ph as [[x|]|x st b]; reflexivity.
Qed.

(** While an activation streams, the settled history is the old one
    followed by the submitted message. *)
Lemma activation_history (h0 h : Hook) (m : SimpleType) (ph : Phase) :
  activation h0 m ph h -> streaming ph ->
  getFilteredMessages (store h) = getFilteredMessages (store h0) ++ [m].
Proof.
  intros (S & _) St. rewrite S, getFilteredMessages_app, getFilteredMessages_cons. simpl.
  destruct ph as [[x|]|x st b]; simpl in *; subst; reflexivity.
Qed.

Lemma activation_closure_of (h0 h : Hook) (m : SimpleType) (ph : Phase) :
  activation h0 m ph h ->
  closure_of (List.length (closures h0)) h
  = Some (mkClosure m (pend_of (idRef h0) ph) (live_of (idRef h0) ph) []).
Proof.
  intros (_ & _ & C). unfold closure_of. rewrite C.
  now rewrite nth_error_app2, Nat.sub_diag by lia.
Qed.

(** X3. A fallback function whose promise resolves: [onError] calls it
    with the submitted message, the error and the settled history (old
    history followed by the submitted message, no [loading] record), and
    changes nothing in the store until the promise settles; the handler
    then resumes, removes the placeholder and live reply and appends one
    [error] record with the resolved payload. *)
Theorem function_fallback_waits_then_replaces (config : XChatConfig) (a : XAgent)
    (f : RequestFallbackFn) (v m : SimpleType) (updates : list SimpleType) (err : ErrorObj)
    (h : Hook) :
  agent config = Some a ->
  requestFallback config = Some (Computed f) ->
  fresh_ids h ->
  f m err (getFilteredMessages (store h) ++ [m]) = Some v ->
  let r := List.length (closures h) in
  let before := run config h (Submit m :: map (AgentUpdate r) updates) in
  let suspended := step config before (AgentError r err) in
  let after := step config suspended (FallbackSettled r) in
  store suspended = store before /\
  idRef suspended = idRef before /\
  store after
  = store h ++ [mkInfo (msg_id (idRef h)) m local; mkInfo (msg_id (idRef before)) v error].
Proof.
  intros A Fb F V r before suspended after. subst after suspended before r.
  pose proof (activation_submit config a m h A) as A1.
  pose proof (activation_updates config h m updates _ _ F A1) as A2.
  pose proof (updates_keep_streaming updates (Waiting (placeholder_of config m h)) I) as St.
  change (run config h (Submit m :: map (AgentUpdate (List.length (closures h))) updates))
    with (run config (step config h (Submit m))
              (map (AgentUpdate (List.length (closures h))) updates)).
  set (before := run config (step config h (Submit m))
                     (map (AgentUpdate (List.length (closures h))) updates)) in *.
  set (r := List.length (closures h)) in *.
  assert (E : step config before (AgentError r err)
              = mkHook (messagesState before) (idRef before)
                       (update_nth r (set_parked [v]) (closures before)) (agentCalls before)).
  { unfold r. rewrite (step_agent_error config h before m _ err A2).
    rewrite (onError_computed config _ err f before Fb).
    unfold parked. rewrite (activation_closure_of _ _ _ _ A2). simpl.
    rewrite (activation_history _ _ _ _ A2 St), V. reflexivity. }
  rewrite E. split; [reflexivity|]. split; [reflexivity|].
  set (suspended := mkHook (messagesState before) (idRef before)
                           (update_nth r (set_parked [v]) (closures before))
                           (agentCalls before)).
  assert (C : has_closure r suspended = true).
  { destruct (activation_closure _ _ _ _ A2) as (C & _).
    unfold has_closure in *. simpl. now rewrite update_nth_length. }
  assert (P : parked r suspended = [v]).
  { unfold parked, closure_of. simpl. rewrite nth_error_update_nth_same.
    pose proof (activation_closure_of _ _ _ _ A2) as Q. unfold closure_of in Q.
    fold r in Q. rewrite Q. reflexivity. }
  simpl step. rewrite C, (onErrorResume_settled r v [] suspended P), put_fallback_eq.
  unfold store at 1, commit. simpl.
  set (resumed := mkHook (messagesState before) (idRef before)
                         (update_nth r (set_parked [])
                                     (update_nth r (set_parked [v]) (closures before)))
                         (agentCalls before)).
  assert (K : forall l, filter (not_of_request r resumed) l
                        = filter (not_of_request r before) l).
  { apply not_of_request_same.
    - rewrite (pendingId_set_parked r r [] suspended resumed eq_refl).
      apply (pendingId_set_parked r r [v] before suspended eq_refl).
    - rewrite (liveId_set_parked r r [] suspended resumed eq_refl).
      apply (liveId_set_parked r r [v] before suspended eq_refl). }
  change (store resumed) with (store before).
  rewrite K. unfold r. rewrite (activation_kept h before m _ F A2), <- app_assoc.
  reflexivity.
Qed.

Lemma function_fallback_waits_then_replaces_witness :
  let config :=
    mkConfig (Some (mkAgent "agent")) None None (Some (Static (SString "...")))
             (Some (Computed (fun m err history => Some (SString err)))) in
  fresh_ids (useXChat config) /\
  store (run config (useXChat config)
             [Submit (SString "q"); AgentUpdate 0 (SString "a"); AgentError 0 "down"%string;
              FallbackSettled 0])
  = [mkInfo (IdStr "msg_0") (SString "q") local;
     mkInfo (IdStr "msg_3") (SString "down") error].
Proof.
  assert (F : fresh_ids (useXChat
                 (mkConfig (Some (mkAgent "agent")) None None (Some (Static (SString "...")))
                           (Some (Computed (fun m err history => Some (SString err))))))).
  { intros info k []. }
  split; [exact F|].
  destruct (function_fallback_waits_then_replaces
              (mkConfig (Some (mkAgent "agent")) None None (Some (Static (SString "...")))
                        (Some (Computed (fun m err history => Some (SString err)))))
              (mkAgent "agent") (fun m err history => Some (SString err))
              (SString "down") (SString "q") [SString "a"] "down"%string
              (useXChat (mkConfig (Some (mkAgent "agent")) None None
                                  (Some (Static (SString "...")))
                                  (Some (Computed (fun m err history => Some (SString err))))))
              eq_refl eq_refl F eq_refl) as (_ & _ & E).
  exact E.
Defined.

(** X4. A fallback function that throws, or whose promise rejects:
    [onError] changes nothing, now or when the promise settles; the hook
    instance stays as it was before the error, the placeholder or live
    reply still stored as a [loading] record. *)
Theorem function_fallback_failure_changes_nothing (config : XChatConfig) (a : XAgent)
    (f : RequestFallbackFn) (m : SimpleType) (updates : list SimpleType) (err : ErrorObj)
    (h : Hook) :
  agent config = Some a ->
  requestFallback config = Some (Computed f) ->
  fresh_ids h ->
  f m err (getFilteredMessages (store h) ++ [m]) = None ->
  let r := List.length (closures h) in
  let before := run config h (Submit m :: map (AgentUpdate r) updates) in
  run config before [AgentError r err; FallbackSettled r] = before /\
  (forall info, In info (store before) -> ~ In info (store h) ->
     info = mkInfo (msg_id (idRef h)) m local \/ status info = loading).
Proof.
  intros A Fb F V r before. subst before r.
  pose proof (activation_submit config a m h A) as A1.
  pose proof (activation_updates config h m updates _ _ F A1) as A2.
  pose proof (updates_keep_streaming updates (Waiting (placeholder_of config m h)) I) as St.
  change (run config h (Submit m :: map (AgentUpdate (List.length (closures h))) updates))
    with (run config (step config h (Submit m))
              (map (AgentUpdate (List.length (closures h))) updates)).
  set (before := run config (step config h (Submit m))
                     (map (AgentUpdate (List.length (closures h))) updates)) in *.
  set (r := List.length (closures h)) in *.
  assert (E : step config before (AgentError r err) = before).
  { unfold r. rewrite (step_agent_error config h before m _ err A2).
    rewrite (onError_computed config _ err f before Fb).
    rewrite (activation_closure_of _ _ _ _ A2). simpl.
    rewrite (activation_history _ _ _ _ A2 St), V. reflexivity. }
  split.
  - change (run config before [AgentError r err; FallbackSettled r])
      with (step config (step config before (AgentError r err)) (FallbackSettled r)).
    rewrite E. simpl.
    destruct (activation_closure _ _ _ _ A2) as (C & _). fold r in C. rewrite C.
    apply onErrorResume_idle. unfold parked, r.
    now rewrite (activation_closure_of _ _ _ _ A2).
  - destruct A2 as (S & _). rewrite S. intros info In1 N.
    apply in_app_or in In1 as [In1|[<-|In1]]; [contradiction | now left | right].
    destruct (fold_left _ updates _) as [[x|]|x st b]; simpl in *;
      try contradiction; destruct In1 as [<-|[]]; simpl; auto.
Qed.

Lemma function_fallback_failure_changes_nothing_witness :
  let config :=
    mkConfig (Some (mkAgent "agent")) None None (Some (Static (SString "...")))
             (Some (Computed (fun m err history => None))) in
  fresh_ids (useXChat config) /\
  store (run config (run config (useXChat config) [Submit (SString "q")])
             [AgentError 0 "down"%string; FallbackSettled 0])
  = [mkInfo (IdStr "msg_0") (SString "q") local;
     mkInfo (IdStr "msg_1") (SString "...") loading].
Proof.
  assert (F : fresh_ids (useXChat
                 (mkConfig (Some (mkAgent "agent")) None None (Some (Static (SString "...")))
                           (Some (Computed (fun m err history => None)))))).
  { intros info k []. }
  split; [exact F|].
  destruct (function_fallback_failure_changes_nothing
              (mkConfig (Some (mkAgent "agent")) None None (Some (Static (SString "...")))
                        (Some (Computed (fun m err history => None))))
              (mkAgent "agent") (fun m err history => None)
              (SString "q") [] "down"%string
              (useXChat (mkConfig (Some (mkAgent "agent")) None None
                                  (Some (Static (SString "...")))
                                  (Some (Computed (fun m err history => None)))))
              eq_refl eq_refl F eq_refl) as (E & _).
  exact (f_equal store E).
Defined.

Lemma filter_map_fixed {A : Type} (p : A -> bool) (f : A -> A) (l : list A) :
  (forall x, p (f x) = p x) -> (forall x, p x = true -> f x = x) ->
  filter p (map f l) = filter p l.
Proof.
  intros P F. induction l as [|x rest IH]; simpl; [reflexivity|].
  rewrite P. destruct (p x) eqn:Q; [|exact IH]. now rewrite (F x Q), IH.
Qed.

Lemma frame_same (r : nat) (h h' : Hook) : store h' = store h -> frame r h h'.
Proof.
  intro S. exists []. rewrite S, app_nil_r. repeat split; [intros x []|simpl; lia].
Qed.

Lemma frame_filtered (r : nat) (h h' : Hook) (q : MessageInfo -> bool) (m : SimpleType)
    (st : MessageStatus) :
  (forall x, not_of_request r h x = true -> q x = true) ->
  store h' = filter q (store h) ++ [mkInfo (msg_id (idRef h)) m st] ->
  frame r h h'.
Proof.
  intros Q S. exists (filter (not_of_request r h) [mkInfo (msg_id (idRef h)) m st]).
  rewrite S, filter_app, (filter_twice _ _ _ Q). split; [reflexivity|]. split.
  - intros x I. apply filter_In in I as [[<-|[]] _]. reflexivity.
  - simpl. destruct (not_of_request r h _); simpl; lia.
Qed.

Lemma frame_update (r : nat) (m : SimpleType) (st : MessageStatus) (h : Hook) :
  frame r h (exec (updateMessage r m st) h).
Proof.
  destruct (find (fun info => id_is (id info) (liveId r h)) (store h)) as [found|] eqn:F.
  - rewrite (updateMessage_overwrite _ _ _ _ _ F). exists [].
    unfold store at 1, commit. simpl. rewrite app_nil_r. split.
    + apply filter_map_fixed.
      * intro x. unfold not_of_request, overwrite_live.
        destruct (id_is (id x) (liveId r h)) eqn:Q; simpl; rewrite ?Q; reflexivity.
      * intros x P. unfold not_of_request in P. unfold overwrite_live.
        apply andb_true_iff in P as [_ P]. apply negb_true_iff in P. now rewrite P.
    + split; [intros x []|simpl; lia].
  - rewrite (updateMessage_create _ _ _ _ F).
    apply (frame_filtered r h _ (fun info => negb (id_is (id info) (pendingId r h))) m st);
      [|reflexivity].
    intros x P. unfold not_of_request in P. now apply andb_true_iff in P as [P _].
Qed.

Lemma frame_fallback (r : nat) (v : SimpleType) (h h' : Hook) :
  pendingId r h' = pendingId r h -> liveId r h' = liveId r h ->
  store h' = store h -> idRef h' = idRef h ->
  frame r h (exec (put_fallback r v) h').
Proof.
  intros P L S C. rewrite put_fallback_eq.
  apply (frame_filtered r h _ (not_of_request r h) v error); [auto|].
  unfold store at 1, commit. simpl. rewrite S, C.
  now rewrite (not_of_request_same r h h' P L).
Qed.

(** X5. Events of one activation leave the rest of the conversation
    alone: whatever the state of the hook instance, after [onUpdate],
    [onSuccess], [onError] or the resumption of [onError] for activation
    [r], the records that are neither the placeholder nor the live reply
    of [r] are all still stored, unchanged and in their order; the only
    other record there can be is the one just created. *)
Theorem other_records_are_untouched (config : XChatConfig) (h : Hook) (e : Event) (r : nat) :
  target e = Some r -> frame r h (step config h e).
Proof.
  destruct e as [m|r' m|r' m|r' err|r'|]; simpl; intro T; try discriminate;
    injection T as ->; (destruct (has_closure r h); [|now apply frame_same]).
  - rewrite exec_onUpdate. apply frame_update.
  - rewrite exec_onSuccess. apply frame_update.
  - destruct (requestFallback config) as [[v|f]|] eqn:F.
    + destruct (truthy v) eqn:Tr.
      * rewrite (onError_static config r err v h F Tr). now apply frame_fallback.
      * rewrite onError_no_fallback by now rewrite F.
        rewrite remove_request_records. exists [].
        unfold store at 1, commit. simpl. rewrite app_nil_r.
        split; [now apply filter_twice | split; [intros x []|simpl; lia]].
    + rewrite (onError_computed config r err f h F).
      destruct (f _ err (getFilteredMessages (store h))); now apply frame_same.
    + rewrite onError_no_fallback by now rewrite F.
      rewrite remove_request_records. exists [].
      unfold store at 1, commit. simpl. rewrite app_nil_r.
      split; [now apply filter_twice | split; [intros x []|simpl; lia]].
  - destruct (parked r h) as [|v rest] eqn:P.
    + rewrite (onErrorResume_idle r h P). now apply frame_same.
    + rewrite (onErrorResume_settled r v rest h P).
      apply frame_fallback; try reflexivity.
      * now apply (pendingId_set_parked r r rest h).
      * now apply (liveId_set_parked r r rest h).
Qed.

Lemma other_records_are_untouched_witness :
  let config :=
    mkConfig (Some (mkAgent "agent")) None None (Some (Static (SString "..."))) None in
  let h := run config (useXChat config) [Submit (SString "q1"); Submit (SString "q2")] in
  target (AgentError 1 "down"%string) = Some 1 /\
  frame 1 h (step config h (AgentError 1 "down"%string)).
Proof.
  split; [reflexivity|].
  apply (other_records_are_untouched
           (mkConfig (Some (mkAgent "agent")) None None (Some (Static (SString "..."))) None)
           (run (mkConfig (Some (mkAgent "agent")) None None
                          (Some (Static (SString "..."))) None)
                (useXChat (mkConfig (Some (mkAgent "agent")) None None
                                    (Some (Static (SString "..."))) None))
                [Submit (SString "q1"); Submit (SString "q2")])
           (AgentError 1 "down"%string) 1 eq_refl).
Defined.

(* ================================================================== *)
(** ** Events after a terminal event *)

Lemma id_is_none (a : MsgId) : id_is a None = false.
Proof. reflexivity. Qed.

(** The old records and the [local] record are neither the placeholder
    nor the live reply of the activation. *)
Lemma settled_records_foreign (h0 : Hook) (m : SimpleType) (ph : Phase) (x : MessageInfo) :
  fresh_ids h0 ->
  In x (store h0 ++ [mkInfo (msg_id (idRef h0)) m local]) ->
  id_is (id x) (pend_of (idRef h0) ph) = false /\
  id_is (id x) (live_of (idRef h0) ph) = false.
Proof.
  intros F I.
  assert (O : In x (store h0) \/ id x = msg_id (idRef h0)).
  { apply in_app_or in I as [I|[<-|[]]]; auto. }
  destruct ph as [[y|]|y st [|]]; simpl; rewrite ?id_is_none; split; try reflexivity;
    apply (not_own_record h0); auto; lia.
Qed.

(** X6. [onSuccess] is not final for the hook: an [onUpdate] that the
    agent delivers after [onSuccess] for the same activation turns the
    [success] record, same id, back into a [loading] record with the
    update's payload. *)
Theorem update_after_success_reopens (config : XChatConfig) (a : XAgent)
    (m fin u : SimpleType) (h : Hook) :
  agent config = Some a ->
  fresh_ids h ->
  let r := List.length (closures h) in
  let live :=
    match placeholder_of config m h with
    | Some _ => msg_id (idRef h + 2)
    | None => msg_id (idRef h + 1)
    end in
  let done := run config h [Submit m; AgentSuccess r fin] in
  store done = store h ++ [mkInfo (msg_id (idRef h)) m local; mkInfo live fin success] /\
  store (step config done (AgentUpdate r u))
  = store h ++ [mkInfo (msg_id (idRef h)) m local; mkInfo live u loading].
Proof.
  intros A F r live done. subst done r.
  pose proof (activation_submit config a m h A) as A1.
  pose proof (activation_agent_success config h _ m _ fin F A1) as A2.
  pose proof (activation_agent_update config h _ m _ u F A2) as A3.
  change (run config h [Submit m; AgentSuccess (List.length (closures h)) fin])
    with (step config (step config h (Submit m))
               (AgentSuccess (List.length (closures h)) fin)).
  destruct A2 as (S2 & _), A3 as (S3 & _). rewrite S2, S3.
  unfold live. destruct (placeholder_of config m h); simpl;
    rewrite ?N.add_0_r; replace (idRef h + 1 + 1)%N with (idRef h + 2)%N by lia;
    split; reflexivity.
Qed.

Lemma update_after_success_reopens_witness :
  let config := mkConfig (Some (mkAgent "agent")) None None None None in
  fresh_ids (useXChat config) /\
  store (step config
           (run config (useXChat config) [Submit (SString "q"); AgentSuccess 0 (SString "done")])
           (AgentUpdate 0 (SString "more")))
  = [mkInfo (IdStr "msg_0") (SString "q") local;
     mkInfo (IdStr "msg_1") (SString "more") loading].
Proof.
  assert (F : fresh_ids (useXChat (mkConfig (Some (mkAgent "agent")) None None None None))).
  { intros info k []. }
  split; [exact F|].
  destruct (update_after_success_reopens
              (mkConfig (Some (mkAgent "agent")) None None None None)
              (mkAgent "agent") (SString "q") (SString "done") (SString "more")
              (useXChat (mkConfig (Some (mkAgent "agent")) None None None None))
              eq_refl F) as (_ & E).
  exact E.
Defined.

(** X7. A reply that arrives after the failure: with no fallback, once
    [onError] has removed the placeholder and the live reply, an
    [onSuccess] for the same activation does not find its record and
    creates a new one, with an id the counter had not issued before,
    appended after the [local] record. *)
Theorem success_after_failure_creates_new_record (config : XChatConfig) (a : XAgent)
    (m fin : SimpleType) (updates : list SimpleType) (err : ErrorObj) (h : Hook) :
  agent config = Some a ->
  requestFallback config = None ->
  fresh_ids h ->
  let r := List.length (closures h) in
  let before := run config h (Submit m :: map (AgentUpdate r) updates) in
  let failed := step config before (AgentError r err) in
  let after := step config failed (AgentSuccess r fin) in
  store failed = store h ++ [mkInfo (msg_id (idRef h)) m local] /\
  store after
  = store h ++ [mkInfo (msg_id (idRef h)) m local; mkInfo (msg_id (idRef before)) fin success] /\
  ~ In (msg_id (idRef before)) (map id (store before)).
Proof.
  intros A Fb F r before failed after. subst after failed before r.
  pose proof (activation_submit config a m h A) as A1.
  pose proof (activation_updates config h m updates _ _ F A1) as A2.
  change (run config h (Submit m :: map (AgentUpdate (List.length (closures h))) updates))
    with (run config (step config h (Submit m))
              (map (AgentUpdate (List.length (closures h))) updates)).
  set (before := run config (step config h (Submit m))
                     (map (AgentUpdate (List.length (closures h))) updates)) in *.
  set (r := List.length (closures h)) in *.
  destruct (activation_closure _ _ _ _ A2) as (C & Pe & Li). fold r in C, Pe, Li.
  assert (E : step config before (AgentError r err)
              = mkHook (commit (store h ++ [mkInfo (msg_id (idRef h)) m local]) before)
                       (idRef before) (closures before) (agentCalls before)).
  { unfold r. rewrite (step_agent_error config h before m _ err A2).
    rewrite onError_no_fallback by now rewrite Fb.
    rewrite remove_request_records. now rewrite (activation_kept h before m _ F A2). }
  rewrite E.
  set (failed := mkHook (commit (store h ++ [mkInfo (msg_id (idRef h)) m local]) before)
                        (idRef before) (closures before) (agentCalls before)).
  split; [reflexivity|]. split.
  - assert (Fn : find (fun info => id_is (id info) (liveId r failed)) (store failed) = None).
    { apply find_all_false. intros x I.
      rewrite (liveId_closures r before failed eq_refl), Li.
      now apply (settled_records_foreign h m _ x F). }
    simpl step. change (has_closure r failed) with (has_closure r before). rewrite C.
    rewrite exec_onSuccess, (updateMessage_create _ _ _ _ Fn).
    unfold store at 1, commit. simpl.
    rewrite (pendingId_closures_eq r before failed eq_refl), Pe.
    rewrite filter_untouched.
    + change (store failed) with (store h ++ [mkInfo (msg_id (idRef h)) m local]).
      now rewrite <- app_assoc.
    + intros x I. apply negb_true_iff. now apply (settled_records_foreign h m _ x F).
  - destruct A2 as (S & Cn & _). rewrite S, Cn, map_app, in_app_iff. simpl.
    intros [I|[I|I]].
    + apply in_ids in I as [x [I Q]]. specialize (F x _ I Q).
      destruct (fold_left _ updates _) as [[y|]|y st []]; simpl in F; lia.
    + apply msg_id_inj in I.
      destruct (fold_left _ updates _) as [[y|]|y st []]; simpl in I; lia.
    + destruct (fold_left _ updates _) as [[y|]|y st []]; simpl in I;
        try contradiction; destruct I as [I|[]]; apply msg_id_inj in I; simpl in I; lia.
Qed.

Lemma success_after_failure_creates_new_record_witness :
  let config :=
    mkConfig (Some (mkAgent "agent")) None None (Some (Static (SString "..."))) None in
  fresh_ids (useXChat config) /\
  store (step config
           (step config
              (run config (useXChat config) [Submit (SString "q"); AgentUpdate 0 (SString "a")])
              (AgentError 0 "down"%string))
           (AgentSuccess 0 (SString "late")))
  = [mkInfo (IdStr "msg_0") (SString "q") local;
     mkInfo (IdStr "msg_3") (SString "late") success].
Proof.
  assert (F : fresh_ids (useXChat (mkConfig (Some (mkAgent "agent")) None None
                                            (Some (Static (SString "..."))) None))).
  { intros info k []. }
  split; [exact F|].
  destruct (success_after_failure_creates_new_record
              (mkConfig (Some (mkAgent "agent")) None None (Some (Static (SString "..."))) None)
              (mkAgent "agent") (SString "q") (SString "late") [SString "a"] "down"%string
              (useXChat (mkConfig (Some (mkAgent "agent")) None None
                                  (Some (Static (SString "..."))) None))
              eq_refl eq_refl F) as (_ & E & _).
  exact E.
Defined.

(** X8. A second [onError] is applied again: with a truthy static
    fallback, two [onError] events for one activation leave two [error]
    records with the fallback payload, the second with the next id; the
    first is not removed, because the handler only tracks the placeholder
    and the live reply. *)
Theorem second_error_appends_second_fallback (config : XChatConfig) (a : XAgent)
    (v m : SimpleType) (updates : list SimpleType) (err err' : ErrorObj) (h : Hook) :
  agent config = Some a ->
  requestFallback config = Some (Static v) ->
  truthy v = true ->
  fresh_ids h ->
  let r := List.length (closures h) in
  let before := run config h (Submit m :: map (AgentUpdate r) updates) in
  store (run config before [AgentError r err; AgentError r err'])
  = store h ++ [mkInfo (msg_id (idRef h)) m local;
                mkInfo (msg_id (idRef before)) v error;
                mkInfo (msg_id (idRef before + 1)) v error].
Proof.
  intros A Fb T F r before. subst before r.
  pose proof (activation_submit config a m h A) as A1.
  pose proof (activation_updates config h m updates _ _ F A1) as A2.
  change (run config h (Submit m :: map (AgentUpdate (List.length (closures h))) updates))
    with (run config (step config h (Submit m))
              (map (AgentUpdate (List.length (closures h))) updates)).
  set (before := run config (step config h (Submit m))
                     (map (AgentUpdate (List.length (closures h))) updates)) in *.
  set (r := List.length (closures h)) in *.
  destruct (activation_closure _ _ _ _ A2) as (C & Pe & Li). fold r in C, Pe, Li.
  change (run config before [AgentError r err; AgentError r err'])
    with (step config (step config before (AgentError r err)) (AgentError r err')).
  assert (E : step config before (AgentError r err)
              = mkHook (commit ((store h ++ [mkInfo (msg_id (idRef h)) m local])
                                ++ [mkInfo (msg_id (idRef before)) v error]) before)
                       (idRef before + 1) (closures before) (agentCalls before)).
  { unfold r. rewrite (step_agent_error config h before m _ err A2).
    rewrite (onError_static config _ err v before Fb T), put_fallback_eq.
    now rewrite (activation_kept h before m _ F A2). }
  rewrite E.
  set (failed := mkHook (commit ((store h ++ [mkInfo (msg_id (idRef h)) m local])
                                 ++ [mkInfo (msg_id (idRef before)) v error]) before)
                        (idRef before + 1) (closures before) (agentCalls before)).
  simpl step. change (has_closure r failed) with (has_closure r before). rewrite C.
  rewrite (onError_static config _ err' v failed Fb T), put_fallback_eq.
  unfold store at 1, commit. simpl.
  rewrite (not_of_request_same r before failed
             (pendingId_closures_eq r before failed eq_refl)
             (liveId_closures r before failed eq_refl)).
  change (store failed)
    with ((store h ++ [mkInfo (msg_id (idRef h)) m local])
          ++ [mkInfo (msg_id (idRef before)) v error]).
  rewrite filter_untouched.
  - rewrite <- !app_assoc. reflexivity.
  - intros x I. unfold not_of_request. rewrite Pe, Li.
    apply in_app_or in I as [I|[<-|[]]].
    + destruct (settled_records_foreign h m
                  (fold_left (fun p u => next_phase p u loading) updates
                             (Waiting (placeholder_of config m h))) x F I) as [-> ->].
      reflexivity.
    + destruct A2 as (_ & -> & _). simpl.
      destruct (fold_left _ updates _) as [[y|]|y st [|]]; simpl;
        rewrite ?id_is_none, ?id_is_msg; simpl;
        repeat (match goal with
                | |- context [N.eqb ?p ?q] =>
                    replace (N.eqb p q) with false by (symmetry; apply N.eqb_neq; lia)
                end); reflexivity.
Qed.

Lemma second_error_appends_second_fallback_witness :
  let config :=
    mkConfig (Some (mkAgent "agent")) None None None (Some (Static (SString "sorry"))) in
  fresh_ids (useXChat config) /\
  store (run config (run config (useXChat config) [Submit (SString "q")])
             [AgentError 0 "down"%string; AgentError 0 "again"%string])
  = [mkInfo (IdStr "msg_0") (SString "q") local;
     mkInfo (IdStr "msg_1") (SString "sorry") error;
     mkInfo (IdStr "msg_2") (SString "sorry") error].
Proof.
  assert (F : fresh_ids (useXChat (mkConfig (Some (mkAgent "agent")) None None None
                                            (Some (Static (SString "sorry")))))).
  { intros info k []. }
  split; [exact F|].
  apply (second_error_appends_second_fallback
           (mkConfig (Some (mkAgent "agent")) None None None (Some (Static (SString "sorry"))))
           (mkAgent "agent") (SString "sorry") (SString "q") [] "down"%string "again"%string
           (useXChat (mkConfig (Some (mkAgent "agent")) None None None
                               (Some (Static (SString "sorry")))))
           eq_refl eq_refl eq_refl F).
Defined.

(* ================================================================== *)
(** ** Seeding and display records *)

Lemma mapi_from_length {A B : Type} (f : A -> nat -> B) (start : nat) (l : list A) :
  List.length (mapi_from f start l) = List.length l.
Proof.
  revert start. induction l as [|x rest IH]; intro start; simpl; [reflexivity|].
  now rewrite IH.
Qed.

Lemma mapi_from_nth {A B : Type} (f : A -> nat -> B) (start i : nat) (l : list A) :
  nth_error (mapi_from f start l) i = option_map (fun x => f x (start + i)) (nth_error l i).
Proof.
  revert start i. induction l as [|x rest IH]; intros start [|i]; simpl; try reflexivity.
  - now rewrite Nat.add_0_r.
  - rewrite IH. now rewrite Nat.add_succ_r.
Qed.

Lemma mapi_from_map {A B C : Type} (g : B -> C) (f : A -> nat -> B) (start : nat)
    (l : list A) :
  map g (mapi_from f start l) = mapi_from (fun x i => g (f x i)) start l.
Proof.
  revert start. induction l as [|x rest IH]; intro start; simpl; [reflexivity|].
  now rewrite IH.
Qed.

Lemma mapi_from_no_index {A B : Type} (g : A -> B) (start : nat) (l : list A) :
  mapi_from (fun x _ => g x) start l = map g l.
Proof.
  revert start. induction l as [|x rest IH]; intro start; simpl; [reflexivity|].
  now rewrite IH.
Qed.

(** X9. The initial store follows [defaultMessages]: one record per
    default, in order, with the default's payload; a default without id
    gets [default_<index>] for its position in the list, one without
    status is [local], and an id or status the default brings is taken as
    it is. When no default brings an id, the seeded ids are pairwise
    distinct and none is an id the counter will issue. The counter starts
    at 0 whatever the seed holds. *)
Theorem seed_follows_defaults (l : list DefaultMessageInfo) :
  List.length (seed (Some l)) = List.length l /\
  map message (seed (Some l)) = map d_message l /\
  (forall i d, nth_error l i = Some d ->
     nth_error (seed (Some l)) i
     = Some (mkInfo (match d_id d with Some x => x | None => default_id i end)
                    (d_message d)
                    (match d_status d with Some s => s | None => local end))) /\
  seed None = [] /\
  (forall config, defaultMessages config = Some l ->
     store (useXChat config) = seed (Some l) /\
     rendered (useXChat config) = seed (Some l) /\
     idRef (useXChat config) = 0%N) /\
  ((forall d, In d l -> d_id d = None) ->
   NoDup (map id (seed (Some l))) /\
   forall info k, In info (seed (Some l)) -> id info <> msg_id k).
Proof.
  unfold seed, mapi. repeat split.
  - apply mapi_from_length.
  - rewrite mapi_from_map. simpl. apply mapi_from_no_index.
  - intros i d N. rewrite mapi_from_nth, N. reflexivity.
  - unfold useXChat, store. simpl. now rewrite H.
  - unfold useXChat, rendered. simpl. now rewrite H.
  - apply (index_ids_seed_ok l H).
  - apply (index_ids_seed_ok l H).
Qed.

Lemma parsedMessages_app (config : XChatConfig) (l1 l2 : list MessageInfo) :
  parsedMessages config (l1 ++ l2) = parsedMessages config l1 ++ parsedMessages config l2.
Proof. unfold parsedMessages. apply flat_map_app. Qed.

(** The display records of one stored record *)
Lemma parsedMessages_single (config : XChatConfig) (info : MessageInfo) :
  parsedMessages config [info]
  = mapi (fun bubbleMsg bubbleMsgIndex =>
            mkInfo (if Nat.ltb 1 (List.length (toArray (parsed config info)))
                    then IdStr (show_id (id info) ++ "_" ++ show_nat bubbleMsgIndex)%string
                    else id info)
                   bubbleMsg (status info))
         (toArray (parsed config info)).
Proof. unfold parsedMessages, parsed. simpl. apply app_nil_r. Qed.

(** X10. The display list for any parser: the payloads are the parsed
    payloads of the stored records, arrays spread, in store order; every
    display record carries the status of the stored record it comes from;
    a record whose parsed payload is an empty array is not displayed at
    all; and the display list of a store that grew at the end is the old
    display list, extended. *)
Theorem display_records_follow_store (config : XChatConfig) (msgs : list MessageInfo) :
  map message (parsedMessages config msgs)
  = flat_map (fun info => toArray (parsed config info)) msgs /\
  map status (parsedMessages config msgs)
  = flat_map (fun info => map (fun _ => status info) (toArray (parsed config info))) msgs /\
  List.length (parsedMessages config msgs)
  = list_sum (map (fun info => List.length (toArray (parsed config info))) msgs) /\
  (forall more, parsedMessages config (msgs ++ more)
                = parsedMessages config msgs ++ parsedMessages config more) /\
  (forall info, toArray (parsed config info) = [] ->
                parsedMessages config (msgs ++ [info]) = parsedMessages config msgs).
Proof.
  split; [|split; [|split; [|split]]].
  - induction msgs as [|info rest IH]; [reflexivity|].
    rewrite parsedMessages_cons, map_app, IH, parsedMessages_single. simpl. f_equal.
    unfold mapi. rewrite mapi_from_map. simpl. rewrite mapi_from_no_index. apply map_id.
  - induction msgs as [|info rest IH]; [reflexivity|].
    rewrite parsedMessages_cons, map_app, IH, parsedMessages_single. simpl. f_equal.
    unfold mapi. rewrite mapi_from_map. simpl. now rewrite mapi_from_no_index.
  - induction msgs as [|info rest IH]; [reflexivity|].
    rewrite parsedMessages_cons, length_app, IH, parsedMessages_single. simpl. f_equal.
    apply mapi_from_length.
  - intro more. apply parsedMessages_app.
  - intros info E. rewrite parsedMessages_app, parsedMessages_single, E. simpl.
    apply app_nil_r.
Qed.

(* ================================================================== *)
(** ** Display ids *)

Lemma underscores_app (a b : string) :
  underscores (a ++ b) = underscores a + underscores b.
Proof.
  induction a as [|c rest IH]; simpl; [reflexivity|]. rewrite IH. lia.
Qed.

Lemma underscores_uint (d : Decimal.uint) :
  underscores (NilEmpty.string_of_uint d) = 0.
Proof. induction d; simpl; auto. Qed.

Lemma underscores_hook_id (s : string) :
  hook_id (IdStr s) -> underscores s = 1.
Proof.
  intros [[k E]|[n E]]; [unfold msg_id in E | unfold default_id in E];
    injection E as ->; simpl; [unfold show_N | unfold show_nat];
    now rewrite underscores_uint.
Qed.

(** A suffix without underscore determines where the last underscore is. *)
Lemma split_at_last_underscore (x x' y y' : string) :
  underscores y = 0 -> underscores y' = 0 ->
  (x ++ "_" ++ y)%string = (x' ++ "_" ++ y')%string -> x = x' /\ y = y'.
Proof.
  intros Y Y'. revert x'. induction x as [|c x IH]; intros [|c' x'] E; simpl in E.
  - injection E as E. auto.
  - injection E as C E. subst c'. rewrite E, underscores_app in Y. simpl in Y. lia.
  - injection E as C E. subst c. rewrite <- E, underscores_app in Y'. simpl in Y'. lia.
  - injection E as C E. subst c'. destruct (IH x' E) as [-> ->]. auto.
Qed.

Lemma suffixed_id_inj (s s' : string) (i j : nat) :
  (s ++ "_" ++ show_nat i)%string = (s' ++ "_" ++ show_nat j)%string -> s = s' /\ i = j.
Proof.
  intro E. apply split_at_last_underscore in E as [-> E]; try apply underscores_uint.
  split; [reflexivity | now apply show_nat_inj].
Qed.

Lemma mapi_from_seq {A B : Type} (f : nat -> B) (start : nat) (l : list A) :
  mapi_from (fun _ i => f i) start l = map f (seq start (List.length l)).
Proof.
  revert start. induction l as [|x rest IH]; intro start; simpl; [reflexivity|].
  now rewrite IH.
Qed.

(** The ids of the display records of one stored record *)
Lemma display_ids_single (config : XChatConfig) (info : MessageInfo) :
  map id (parsedMessages config [info])
  = map (fun i => if Nat.ltb 1 (List.length (toArray (parsed config info)))
                  then IdStr (show_id (id info) ++ "_" ++ show_nat i)%string
                  else id info)
        (seq 0 (List.length (toArray (parsed config info)))).
Proof.
  rewrite parsedMessages_single. unfold mapi. rewrite mapi_from_map. simpl.
  apply (mapi_from_seq
           (fun i => if Nat.ltb 1 (List.length (toArray (parsed config info)))
                     then IdStr (show_id (id info) ++ "_" ++ show_nat i)%string
                     else id info)).
Qed.

Lemma display_id_origin (config : XChatConfig) (info : MessageInfo) (d : MsgId) :
  In d (map id (parsedMessages config [info])) ->
  d = id info \/ exists i, d = IdStr (show_id (id info) ++ "_" ++ show_nat i)%string.
Proof.
  rewrite display_ids_single. intro I. apply in_map_iff in I as [i [E _]].
  destruct (Nat.ltb 1 _); [right; now exists i | now left].
Qed.

Lemma display_ids_single_nodup (config : XChatConfig) (info : MessageInfo) :
  NoDup (map id (parsedMessages config [info])).
Proof.
  rewrite display_ids_single.
  destruct (Nat.ltb 1 (List.length (toArray (parsed config info)))) eqn:L.
  - apply Injective_map_NoDup; [|apply seq_NoDup].
    intros i j E. injection E as E. now apply suffixed_id_inj in E.
  - apply Nat.ltb_ge in L.
    destruct (List.length (toArray (parsed config info))) as [|[|n]]; simpl;
      [constructor | repeat constructor; intros [] | lia].
Qed.

(** Display ids derived from two different hook ids differ. *)
Lemma display_ids_apart (s s' : string) (d : MsgId) :
  hook_id (IdStr s) -> hook_id (IdStr s') ->
  d = IdStr s \/ (exists i, d = IdStr (s ++ "_" ++ show_nat i)%string) ->
  d = IdStr s' \/ (exists j, d = IdStr (s' ++ "_" ++ show_nat j)%string) ->
  s = s'.
Proof.
  intros H H' [-> | [i ->]] [E | [j E]]; injection E as E.
  - exact E.
  - apply underscores_hook_id in H, H'. rewrite E, underscores_app in H.
    simpl in H. unfold show_nat in H. rewrite underscores_uint in H. lia.
  - apply underscores_hook_id in H, H'. rewrite <- E, underscores_app in H'.
    simpl in H'. unfold show_nat in H'. rewrite underscores_uint in H'. lia.
  - now apply suffixed_id_inj in E.
Qed.

(** X11. Display ids stay unique: when the stored records have pairwise
    distinct ids and every id is one the hook issues ([msg_<n>] or
    [default_<n>]), the display records have pairwise distinct ids,
    whatever the parser and however many items each payload is spread
    into. *)
Theorem display_ids_are_unique (config : XChatConfig) (msgs : list MessageInfo) :
  NoDup (map id msgs) ->
  (forall info, In info msgs -> hook_id (id info)) ->
  NoDup (map id (parsedMessages config msgs)).
Proof.
  induction msgs as [|info rest IH]; intros N H; [constructor|].
  inversion N as [|? ? N1 N2]; subst.
  rewrite parsedMessages_cons, map_app.
  apply NoDup_app.
  - apply display_ids_single_nodup.
  - apply IH; [exact N2 | intros x I; apply H; now right].
  - intros d D D'. apply display_id_origin in D.
    assert (O : exists info', In info' rest /\
                  (d = id info' \/
                   exists j, d = IdStr (show_id (id info') ++ "_" ++ show_nat j)%string)).
    { clear - D'. induction rest as [|y rest IH]; [contradiction|].
      rewrite parsedMessages_cons, map_app in D'. apply in_app_or in D' as [D'|D'].
      - exists y. split; [now left | now apply (display_id_origin config)].
      - destruct (IH D') as [z [Z O]]. exists z. split; [now right | exact O]. }
    destruct O as [info' [I' O]].
    pose proof (H info (or_introl eq_refl)) as Hi.
    pose proof (H info' (or_intror I')) as Hi'.
    destruct (id info) as [n|s] eqn:Ei.
    { destruct Hi as [[k Q]|[k Q]]; discriminate. }
    destruct (id info') as [n|s'] eqn:Ei'.
    { destruct Hi' as [[k Q]|[k Q]]; discriminate. }
    simpl in D, O. pose proof (display_ids_apart s s' d Hi Hi' D O) as Q.
    apply N1. apply in_ids. exists info'. split; [exact I' | now rewrite Ei', Q].
Qed.

Lemma display_ids_are_unique_witness :
  let config :=
    mkConfig None None (Some (fun v => SArray [v; SString "(end)"])) None None in
  let msgs :=
    [mkInfo (default_id 0) (SString "hi") local; mkInfo (msg_id 0) (SString "q") local;
     mkInfo (msg_id 1) (SString "a") success] in
  NoDup (map id (parsedMessages config msgs)).
Proof.
  apply (display_ids_are_unique
           (mkConfig None None (Some (fun v => SArray [v; SString "(end)"])) None None)
           [mkInfo (default_id 0) (SString "hi") local; mkInfo (msg_id 0) (SString "q") local;
            mkInfo (msg_id 1) (SString "a") success]).
  - repeat constructor; simpl; intuition discriminate.
  - intros info [<-|[<-|[<-|[]]]]; simpl.
    + right. now exists 0.
    + left. now exists 0%N.
    + left. now exists 1%N.
Defined.

(* ================================================================== *)
(** ** Two requests in flight *)

Lemma fresh_ids_step (e : Event) (h h' : Hook) :
  fresh_ids h -> Effect e h h' -> fresh_ids h'.
Proof.
  intros F [S C L R | keep news S C N' G L R U | r m st keep U S C L1 L2 R
            | r m st i U L S C L' R]; unfold fresh_ids in *; rewrite S.
  - rewrite C. exact F.
  - intros info k I E. apply in_app_or in I as [I|I].
    + apply filter_In in I as [I _]. specialize (F info k I E). lia.
    + destruct (G info I) as [k' [K Kr]]. rewrite K in E. apply msg_id_inj in E. lia.
  - rewrite C. intros info k I E. apply in_app_or in I as [I|[<-|[]]].
    + apply filter_In in I as [I _]. specialize (F info k I E). lia.
    + simpl in E. apply msg_id_inj in E. lia.
  - rewrite C. intros info k I E. apply in_map_iff in I as [x [X I]].
    apply (F x k I). rewrite <- E, <- X. now destruct (id_eqb (id x) i).
Qed.

(** X12. Replies are stored in the order of their first event, not of
    their submission: when two requests are submitted and the agent
    answers the second one first, the store holds the old content, the
    two [local] records, then the reply to the second request and last
    the reply to the first; both placeholders, if any, are gone. *)
Theorem replies_follow_first_event (config : XChatConfig) (a : XAgent)
    (m1 m2 a1 a2 : SimpleType) (h : Hook) :
  agent config = Some a ->
  fresh_ids h ->
  let r1 := List.length (closures h) in
  let r2 := S r1 in
  let n := match requestPlaceholder config with
           | Some p => if truthy_or_fn p then 2%N else 1%N
           | None => 1%N
           end in
  store (run config h [Submit m1; Submit m2; AgentSuccess r2 a2; AgentSuccess r1 a1])
  = store h ++ [mkInfo (msg_id (idRef h)) m1 local;
                mkInfo (msg_id (idRef h + n)) m2 local;
                mkInfo (msg_id (idRef h + n + n)) a2 success;
                mkInfo (msg_id (idRef h + n + n + 1)) a1 success].
Proof.
  intros A F r1 r2 n. subst r2 r1.
  set (h1 := step config h (Submit m1)).
  set (h2 := step config h1 (Submit m2)).
  set (h3 := step config h2 (AgentSuccess (S (List.length (closures h))) a2)).
  change (run config h [Submit m1; Submit m2;
                        AgentSuccess (S (List.length (closures h))) a2;
                        AgentSuccess (List.length (closures h)) a1])
    with (step config h3 (AgentSuccess (List.length (closures h)) a1)).
  pose proof (activation_submit config a m1 h A) as A1. fold h1 in A1.
  assert (F1 : fresh_ids h1) by (apply (fresh_ids_step (Submit m1) h); [exact F | apply step_effect]).
  pose proof (activation_submit config a m2 h1 A) as A2. fold h2 in A2.
  assert (L1 : List.length (closures h1) = S (List.length (closures h))).
  { destruct A1 as (_ & _ & ->). rewrite length_app. simpl. lia. }
  pose proof (activation_agent_success config h1 h2 m2 _ a2 F1 A2) as A3.
  rewrite L1 in A3. fold h3 in A3.
  assert (P : placeholder_of config m1 h = None /\ placeholder_of config m2 h1 = None /\ n = 1%N
              \/ (exists x y, placeholder_of config m1 h = Some x /\
                              placeholder_of config m2 h1 = Some y) /\ n = 2%N).
  { unfold placeholder_of, n. destruct (requestPlaceholder config) as [p|]; [|now left].
    destruct (truthy_or_fn p); [right | now left]. split; [|reflexivity]. eauto. }
  destruct A1 as (S1 & C1 & K1), A3 as (S3 & C3 & K3).
  assert (HC : has_closure (List.length (closures h)) h3 = true).
  { unfold has_closure. rewrite K3, K1, !length_app. simpl. apply Nat.ltb_lt. lia. }
  assert (Cl : closure_of (List.length (closures h)) h3
               = Some (mkClosure m1 (pend_of (idRef h) (Waiting (placeholder_of config m1 h)))
                                 None [])).
  { unfold closure_of. rewrite K3, K1, <- app_assoc.
    now rewrite nth_error_app2, Nat.sub_diag by lia. }
  assert (Li : liveId (List.length (closures h)) h3 = None)
    by (unfold liveId; now rewrite Cl).
  assert (Pe : pendingId (List.length (closures h)) h3
               = pend_of (idRef h) (Waiting (placeholder_of config m1 h)))
    by (unfold pendingId; now rewrite Cl).
  assert (Fn : find (fun info => id_is (id info) (liveId (List.length (closures h)) h3))
                    (store h3) = None)
    by (rewrite Li; apply find_no_live).
  simpl step. rewrite HC, exec_onSuccess, (updateMessage_create _ _ _ _ Fn).
  unfold store at 1, commit. simpl. rewrite Pe, S3, S1, C3, C1.
  assert (Old : forall k, (idRef h <= k)%N ->
                  filter (fun info => negb (id_is (id info) (Some (msg_id k)))) (store h)
                  = store h).
  { intros k Lk. apply filter_untouched. intros x I. apply negb_true_iff.
    now apply (fresh_not_is h). }
  destruct P as [(P1 & P2 & ->) | ((x & y & P1 & P2) & ->)]; rewrite P1, P2; simpl.
  - rewrite filter_untouched by reflexivity.
    rewrite <- !app_assoc. simpl. rewrite !N.add_0_r.
    replace (idRef h + 1 + 2)%N with (idRef h + 1 + 1 + 1)%N by lia. reflexivity.
  - rewrite !filter_app, (Old (idRef h + 1)%N) by lia. simpl.
    rewrite !id_is_msg.
    repeat (match goal with
            | |- context [N.eqb ?p ?q] =>
                first [ replace (N.eqb p q) with false by (symmetry; apply N.eqb_neq; lia)
                      | replace (N.eqb p q) with true by (symmetry; apply N.eqb_eq; lia) ]
            end); simpl.
    rewrite <- !app_assoc. simpl.
    replace (idRef h + 2 + 1 + 1)%N with (idRef h + 2 + 2)%N by lia.
    replace (idRef h + 2 + 3)%N with (idRef h + 2 + 2 + 1)%N by lia.
    reflexivity.
Qed.

Lemma replies_follow_first_event_witness :
  let config :=
    mkConfig (Some (mkAgent "agent")) None None (Some (Static (SString "..."))) None in
  fresh_ids (useXChat config) /\
  store (run config (useXChat config)
             [Submit (SString "q1"); Submit (SString "q2"); AgentSuccess 1 (SString "a2");
              AgentSuccess 0 (SString "a1")])
  = [mkInfo (IdStr "msg_0") (SString "q1") local;
     mkInfo (IdStr "msg_2") (SString "q2") local;
     mkInfo (IdStr "msg_4") (SString "a2") success;
     mkInfo (IdStr "msg_5") (SString "a1") success].
Proof.
  assert (F : fresh_ids (useXChat (mkConfig (Some (mkAgent "agent")) None None
                                            (Some (Static (SString "..."))) None))).
  { intros info k []. }
  split; [exact F|].
  apply (replies_follow_first_event
           (mkConfig (Some (mkAgent "agent")) None None (Some (Static (SString "..."))) None)
           (mkAgent "agent") (SString "q1") (SString "q2") (SString "a1") (SString "a2")
           (useXChat (mkConfig (Some (mkAgent "agent")) None None
                               (Some (Static (SString "..."))) None))
           eq_refl F).
Defined.

(* ================================================================== *)
(** ** The token table *)

Lemma string_compare_refl (s : string) : String.compare s s = Eq.
Proof.
  induction s as [|c s IH]; simpl; [reflexivity|].
  unfold Ascii.compare. now rewrite N.compare_refl.
Qed.

Lemma string_compare_trans (a b c : string) :
  String.compare a b = Lt -> String.compare b c = Lt -> String.compare a c = Lt.
Proof.
  revert b c. induction a as [|x a IH]; intros [|y b] [|z c]; simpl; try discriminate; auto.
  unfold Ascii.compare. intros H1 H2.
  destruct (N.compare (N_of_ascii x) (N_of_ascii y)) eqn:XY; try discriminate;
    destruct (N.compare (N_of_ascii y) (N_of_ascii z)) eqn:YZ; try discriminate.
  - apply N.compare_eq in XY, YZ. rewrite XY, YZ, N.compare_refl. now apply (IH b c).
  - apply N.compare_eq in XY. now rewrite XY, YZ.
  - apply N.compare_eq in YZ. now rewrite <- YZ, XY.
  - assert (XZ : N.compare (N_of_ascii x) (N_of_ascii z) = Lt).
    { apply N.compare_lt_iff. apply N.compare_lt_iff in XY. apply N.compare_lt_iff in YZ.
      exact (N.lt_trans _ _ _ XY YZ). }
    now rewrite XZ.
Qed.

Lemma ltb_compare (a b : string) : String.ltb a b = true <-> String.compare a b = Lt.
Proof. unfold String.ltb. destruct (String.compare a b); split; congruence. Qed.

Lemma ltb_irrefl (a : string) : String.ltb a a = false.
Proof. unfold String.ltb. now rewrite string_compare_refl. Qed.

Lemma ltb_total (a b : string) : a <> b -> String.ltb b a = negb (String.ltb a b).
Proof.
  intro N. unfold String.ltb. rewrite (String.compare_antisym b a).
  destruct (String.compare a b) eqn:C; try reflexivity.
  apply String.compare_eq_iff in C. contradiction.
Qed.

Lemma ltb_trans (a b c : string) :
  String.ltb a b = true -> String.ltb b c = true -> String.ltb a c = true.
Proof. rewrite !ltb_compare. apply string_compare_trans. Qed.

(** X13. The comparator of the global token table never answers 0, not
    even for a token and itself; it puts every token whose lower-cased
    name contains "color" before every token whose name does not, and
    orders two tokens of the same kind by [<] on their names; on distinct
    tokens it is antisymmetric and transitive, so it is a strict total
    order. *)
Theorem compare_is_a_strict_order_colors_first :
  (forall t1 t2, compare t1 t2 = (-1)%Z \/ compare t1 t2 = 1%Z) /\
  (forall t, compare t t = 1%Z) /\
  (forall t1 t2,
      includes (toLowerCase t1) "color" = true ->
      includes (toLowerCase t2) "color" = false ->
      compare t1 t2 = (-1)%Z /\ compare t2 t1 = 1%Z) /\
  (forall t1 t2,
      includes (toLowerCase t1) "color" = includes (toLowerCase t2) "color" ->
      compare t1 t2 = if String.ltb t1 t2 then (-1)%Z else 1%Z) /\
  (forall t1 t2, t1 <> t2 -> compare t2 t1 = (- compare t1 t2)%Z) /\
  (forall t1 t2 t3,
      compare t1 t2 = (-1)%Z -> compare t2 t3 = (-1)%Z -> compare t1 t3 = (-1)%Z).
Proof.
  split; [|split; [|split; [|split; [|split]]]].
  - intros t1 t2. unfold compare.
    destruct (includes (toLowerCase t1) "color"), (includes (toLowerCase t2) "color");
      simpl; auto; destruct (String.ltb t1 t2); auto.
  - intro t. unfold compare. rewrite ltb_irrefl.
    now destruct (includes (toLowerCase t) "color").
  - intros t1 t2 C1 C2. unfold compare. rewrite C1, C2. auto.
  - intros t1 t2 C. unfold compare. rewrite C.
    now destruct (includes (toLowerCase t2) "color").
  - intros t1 t2 N. unfold compare.
    destruct (includes (toLowerCase t1) "color"), (includes (toLowerCase t2) "color");
      simpl; try reflexivity; rewrite (ltb_total t1 t2 N); now destruct (String.ltb t1 t2).
  - intros t1 t2 t3. unfold compare.
    destruct (includes (toLowerCase t1) "color"), (includes (toLowerCase t2) "color"),
      (includes (toLowerCase t3) "color"); simpl; try discriminate; auto;
      destruct (String.ltb t1 t2) eqn:A; try discriminate;
      destruct (String.ltb t2 t3) eqn:B; try discriminate;
      now rewrite (ltb_trans t1 t2 t3 A B).
Qed.

Example compare_color_first :
  compare "borderRadius" "bgColorHover" = 1%Z /\ compare "COLOR" "a" = (-1)%Z
  /\ compare "margin" "padding" = (-1)%Z.
Proof. repeat split. Qed.

Example split_comma_examples :
  split_comma "Bubble,Sender" = ["Bubble"; "Sender"]%string
  /\ split_comma EmptyString = [EmptyString]
  /\ split_comma "a," = ["a"; EmptyString]%string.
Proof. repeat split. Qed.

(** [split(',')] loses nothing: joining the pieces with commas gives the
    string back. *)
Lemma split_comma_concat (s : string) : String.concat "," (split_comma s) = s.
Proof.
  induction s as [|c rest IH]; [reflexivity|]. simpl.
  destruct (Ascii.eqb_spec c ",") as [->|N].
  - change (String.concat "," (EmptyString :: split_comma rest))
      with (match split_comma rest with
            | [] => EmptyString
            | _ :: _ => ("" ++ "," ++ String.concat "," (split_comma rest))%string
            end).
    destruct (split_comma rest) as [|p ps] eqn:E.
    + destruct rest; simpl in E; [discriminate|].
      destruct (Ascii.eqb a ","); [discriminate|]. destruct (split_comma rest); discriminate.
    + simpl. simpl in IH. now rewrite IH.
  - destruct (split_comma rest) as [|p ps] eqn:E.
    + destruct rest; simpl in E; [discriminate|].
      destruct (Ascii.eqb a ","); [discriminate|]. destruct (split_comma rest); discriminate.
    + simpl in *. destruct ps; simpl in *; now rewrite IH.
Qed.

Lemma set_add_in (set : list string) (x t : string) :
  In t (set_add set x) <-> In t set \/ t = x.
Proof.
  unfold set_add. destruct (existsb (String.eqb x) set) eqn:E.
  - split; [auto|]. intros [I| ->]; [exact I|].
    apply existsb_exists in E as [y [I Q]]. apply String.eqb_eq in Q. now subst.
  - rewrite in_app_iff. simpl. intuition.
Qed.

Lemma set_add_nodup (set : list string) (x : string) :
  NoDup set -> NoDup (set_add set x).
Proof.
  intro N. unfold set_add. destruct (existsb (String.eqb x) set) eqn:E; [exact N|].
  apply NoDup_app; [exact N | repeat constructor; intros [] |].
  intros y I [Q|[]]. subst y.
  assert (Q : existsb (String.eqb x) set = true).
  { apply existsb_exists. exists x. split; [exact I | apply String.eqb_refl]. }
  rewrite Q in E. discriminate.
Qed.

Lemma set_add_prefix (set : list string) (x : string) :
  exists rest, set_add set x = set ++ rest.
Proof.
  unfold set_add. destruct (existsb (String.eqb x) set).
  - exists []. now rewrite app_nil_r.
  - now exists [x].
Qed.

Lemma add_all_in (l set : list string) (t : string) :
  In t (fold_left set_add l set) <-> In t set \/ In t l.
Proof.
  revert set. induction l as [|x rest IH]; intro set; simpl; [intuition|].
  rewrite IH, set_add_in. intuition.
Qed.

Lemma add_all_nodup (l set : list string) :
  NoDup set -> NoDup (fold_left set_add l set).
Proof.
  revert set. induction l as [|x rest IH]; intros set N; simpl; [exact N|].
  apply IH. now apply set_add_nodup.
Qed.

Lemma add_all_prefix (l set : list string) :
  exists rest, fold_left set_add l set = set ++ rest.
Proof.
  revert set. induction l as [|x more IH]; intro set; simpl.
  - exists []. now rewrite app_nil_r.
  - destruct (set_add_prefix set x) as [r1 E1]. destruct (IH (set_add set x)) as [r2 E2].
    exists (r1 ++ r2). now rewrite E2, E1, app_assoc.
Qed.

(** Adding a list without repetition to a set it shares nothing with
    appends it as it is. *)
Lemma add_all_fresh (l set : list string) :
  NoDup l -> (forall t, In t l -> ~ In t set) -> fold_left set_add l set = set ++ l.
Proof.
  revert set. induction l as [|x rest IH]; intros set N D; simpl.
  - now rewrite app_nil_r.
  - inversion N as [|? ? N1 N2]; subst.
    assert (E : set_add set x = set ++ [x]).
    { unfold set_add. destruct (existsb (String.eqb x) set) eqn:Q; [|reflexivity].
      apply existsb_exists in Q as [y [I Q]]. apply String.eqb_eq in Q. subst y.
      exfalso. apply (D x); [now left | exact I]. }
    rewrite E, IH, <- app_assoc; [reflexivity | exact N2 |].
    intros t I J. apply in_app_or in J as [J|[<-|[]]].
    + apply (D t); [now right | exact J].
    + contradiction.
Qed.

Lemma merged_from (tokenData : string -> option (list string)) (comps : list string)
    (set : list string) :
  fold_left
    (fun globalTokenSet comp =>
       fold_left set_add (match tokenData comp with Some g => g | None => [] end)
                 globalTokenSet)
    comps set
  = fold_left set_add
      (flat_map (fun comp => match tokenData comp with Some g => g | None => [] end) comps)
      set.
Proof.
  revert set. induction comps as [|c rest IH]; intro set; simpl; [reflexivity|].
  now rewrite IH, fold_left_app.
Qed.

(** X14. The global tokens merged over a comma-separated list of
    components: the result has no repetition; a token is in it exactly
    when it is a global token of one of the listed components (a name
    with no entry contributes nothing); merging component by component is
    the same as adding the concatenated lists to one set; and the tokens
    of the first component, when they do not repeat, come first and in
    their order. *)
Theorem merged_global_tokens_are_a_union (tokenData : string -> option (list string))
    (component : string) :
  NoDup (mergedGlobalTokens tokenData component) /\
  (forall t,
      In t (mergedGlobalTokens tokenData component) <->
      exists comp g, In comp (split_comma component) /\ tokenData comp = Some g /\ In t g) /\
  mergedGlobalTokens tokenData component
  = fold_left set_add
      (flat_map (fun comp => match tokenData comp with Some g => g | None => [] end)
                (split_comma component))
      [] /\
  (forall first others g,
      split_comma component = first :: others -> tokenData first = Some g -> NoDup g ->
      exists rest, mergedGlobalTokens tokenData component = g ++ rest).
Proof.
  unfold mergedGlobalTokens. rewrite merged_from. split; [|split; [|split]].
  - apply add_all_nodup. constructor.
  - intro t. rewrite add_all_in, in_flat_map. split.
    + intros [[]|[comp [I G]]]. destruct (tokenData comp) as [g|] eqn:E; [|contradiction].
      now exists comp, g.
    + intros [comp [g [I [E G]]]]. right. exists comp. split; [exact I|]. now rewrite E.
  - reflexivity.
  - intros first others g S E N. rewrite S. simpl. rewrite E, fold_left_app.
    rewrite (add_all_fresh g [] N) by (intros t _ []). simpl.
    apply add_all_prefix.
Qed.
